(** * Hydrogen: the event queue and the JACK driver's bookkeeping

    A shallow embedding of [src/core/EventQueue.cpp] and of the parts of
    the JACK audio driver that are documented in its header, together with
    the properties stated about them. *)

From stdpp Require Import base numbers list strings gmap pretty.
From Stdlib Require Import ZArith Lia.

Local Open Scope Z_scope.

(** ** Unsigned machine counters *)

(** [unsigned int] arithmetic: values live in [0, 2^32) and [++] wraps. *)
Definition UINT_MODULUS : Z := 2 ^ 32.

(** [++c] on an [unsigned int]: the incremented value, which is also the
    value of the expression. *)
Definition pre_increment (c : Z) : Z := (c + 1) mod UINT_MODULUS.

(** ** EventQueue *)

Module EventQueue.

(** Modelled from the spec: the enumeration [EventType] is declared in
    EventQueue.h, which is not part of the sources at hand.  The queue code
    only ever names [EVENT_NONE]; the other enumerators are the ones the
    specification lists for the driver layer. *)
Inductive EventType : Set :=
| EVENT_NONE
| EVENT_SERVER_SHUTDOWN
| EVENT_ROLE_CHANGED
| EVENT_RELOCATION_OCCURRED.

#[global] Instance EventType_eq_dec : EqDecision EventType.
Proof. solve_decision. Defined.

(** [struct Event { EventType type; int value; }] *)
Record Event : Set := mkEvent { type : EventType; value : Z }.

#[global] Instance Event_eq_dec : EqDecision Event.
Proof. solve_decision. Defined.

(** The event built on the empty path of [pop_event]. *)
Definition NONE_event : Event := mkEvent EVENT_NONE 0.

#[global] Instance Event_inhabited : Inhabited Event := populate NONE_event.

(** The object state: the cursors [__read_index] and [__write_index] and
    the array [__events_buffer[MAX_EVENTS]].

    Modelled from the spec: the members are declared in EventQueue.h, which
    is not part of the sources at hand.  The cursors are taken to be
    [unsigned int], the type of the locals [nIndex] they are copied to:
    counters that wrap at [2^32]. *)
Record t : Set := mkQueue {
  __read_index : Z;
  __write_index : Z;
  __events_buffer : list Event
}.

Section WithCapacity.

(** [MAX_EVENTS] is a macro of the absent header; the code is embedded for
    an arbitrary value of it. *)
Variable MAX_EVENTS : Z.

(** [nIndex % MAX_EVENTS], as an array subscript. *)
Definition slot (nIndex : Z) : nat := Z.to_nat (nIndex mod MAX_EVENTS).

(** [EventQueue::EventQueue()]: both cursors at zero, every slot
    [{EVENT_NONE, 0}]. *)
Definition create : t :=
  mkQueue 0 0 (replicate (Z.to_nat MAX_EVENTS) (mkEvent EVENT_NONE 0)).

(** [void EventQueue::push_event( const EventType type, const int nValue )] *)
Definition push_event (q : t) (type : EventType) (nValue : Z) : t :=
  let w := pre_increment (__write_index q) in
  let nIndex := slot w in
  let ev := mkEvent type nValue in
  mkQueue (__read_index q) w (<[nIndex := ev]> (__events_buffer q)).

(** [Event EventQueue::pop_event()]: the returned event and the state
    afterwards.  The subscript is always inside the array (see
    [slot_in_range]); the default of the total lookup is never used on a
    well-formed queue. *)
Definition pop_event (q : t) : Event * t :=
  if __read_index q =? __write_index q then
    (mkEvent EVENT_NONE 0, q)
  else
    let r := pre_increment (__read_index q) in
    let nIndex := slot r in
    (__events_buffer q !!! nIndex,
     mkQueue r (__write_index q) (__events_buffer q)).

(** Pushing a list of events, first element first. *)
Definition push_all (q : t) (evs : list Event) : t :=
  foldl (fun q ev => push_event q (type ev) (value ev)) q evs.

(** [n] successive calls of [pop_event], with the returned events in call
    order. *)
Fixpoint pop_n (n : nat) (q : t) : list Event * t :=
  match n with
  | O => ([], q)
  | S n' =>
      let '(ev, q1) := pop_event q in
      let '(evs, q2) := pop_n n' q1 in
      (ev :: evs, q2)
  end.

(** A consumer that pops until an event of type [EVENT_NONE] comes back,
    and the events it got before.  [fuel] bounds the number of calls;
    [None] means the loop was still running when the fuel ran out. *)
Fixpoint drain (fuel : nat) (q : t) : option (list Event * t) :=
  match fuel with
  | O => None
  | S fuel' =>
      let '(ev, q1) := pop_event q in
      match type ev with
      | EVENT_NONE => Some ([], q1)
      | _ =>
          match drain fuel' q1 with
          | Some (evs, q2) => Some (ev :: evs, q2)
          | None => None
          end
      end
  end.

(** Representation invariant of the object: cursors are [unsigned int]
    values and the array has [MAX_EVENTS] elements. *)
Definition wf (q : t) : Prop :=
  0 <= __read_index q < UINT_MODULUS /\
  0 <= __write_index q < UINT_MODULUS /\
  length (__events_buffer q) = Z.to_nat MAX_EVENTS.

(** Number of events pushed and not yet popped, as the cursors see it. *)
Definition pending (q : t) : Z :=
  (__write_index q - __read_index q) mod UINT_MODULUS.

(** The counters [w+1 .. w+n] address the array as if they had never
    wrapped at [2^32]. *)
Definition wrap_free (w n : Z) : Prop :=
  forall i, 0 <= i <= n ->
    ((w + i) mod UINT_MODULUS) mod MAX_EVENTS = (w + i) mod MAX_EVENTS.

(** Among [n] pushes numbered from zero, the number of the last push that
    went to the same slot as push [j]: the event a reader finds there. *)
Definition latest_index (n j : nat) : nat :=
  (j + Z.to_nat MAX_EVENTS * ((n - 1 - j) / Z.to_nat MAX_EVENTS))%nat.

(** What a reader gets for the first [k] pops after [evs] were pushed onto
    an empty queue: for each, the latest event written to its slot. *)
Definition stale_reads (evs : list Event) (k : nat) : list Event :=
  map (fun j => evs !!! latest_index (length evs) j) (seq 0 k).

(** The unread events in read order, as the cursors and the array give
    them: the slots of the counters [read+1 .. read+pending]. *)
Definition contents (q : t) : list Event :=
  map (fun i : nat =>
         __events_buffer q
           !!! slot ((__read_index q + Z.of_nat (S i)) mod UINT_MODULUS))
      (seq 0 (Z.to_nat (pending q))).

(** A client's calls on the queue. *)
Inductive op : Set :=
| Push (ty : EventType) (v : Z)
| Pop.

(** Running a sequence of calls; the events returned by the [Pop]s, in
    call order, and the final state. *)
Fixpoint run (q : t) (ops : list op) : list Event * t :=
  match ops with
  | [] => ([], q)
  | Push ty v :: ops' => run (push_event q ty v) ops'
  | Pop :: ops' =>
      let '(ev, q1) := pop_event q in
      let '(out, q2) := run q1 ops' in
      (ev :: out, q2)
  end.

(** The specification's reading of the queue, for comparison with [run]: a
    first-in first-out list of at most [MAX_EVENTS] unread events, where a
    pop on the empty list yields the [EVENT_NONE] sentinel.  [None] marks a
    push onto a full list, which leaves the first-in first-out regime. *)
Fixpoint fifo_run (l : list Event) (ops : list op)
  : option (list Event * list Event) :=
  match ops with
  | [] => Some ([], l)
  | Push ty v :: ops' =>
      if Z.of_nat (length l) <? MAX_EVENTS
      then fifo_run (l ++ [mkEvent ty v]) ops'
      else None
  | Pop :: ops' =>
      match l with
      | [] =>
          match fifo_run [] ops' with
          | Some (out, l') => Some (mkEvent EVENT_NONE 0 :: out, l')
          | None => None
          end
      | x :: l1 =>
          match fifo_run l1 ops' with
          | Some (out, l') => Some (x :: out, l')
          | None => None
          end
      end
  end.

(** [EventQueue::create_instance()] on the static pointer [__instance]
    ([None] for [nullptr]): a queue is constructed only when there is none;
    the constructor makes the new object the instance. *)
Definition create_instance (__instance : option t) : option t :=
  match __instance with
  | None => Some create
  | Some q => Some q
  end.

(** What a client does with the singleton: [create_instance], or a call on
    the object [__instance] points to. *)
Inductive instance_op : Set :=
| CreateInstance
| Call (o : op).

(** The calls on the object among a client's operations. *)
Definition calls_only (ops : list instance_op) : list op :=
  omap (fun o => match o with CreateInstance => None | Call c => Some c end)
       ops.

(** Running a client's operations on the singleton.  A call needs the
    object: with [__instance] null there is nothing to run, [None]. *)
Fixpoint instance_run (__instance : option t) (ops : list instance_op)
  : option (list Event * option t) :=
  match ops with
  | [] => Some ([], __instance)
  | CreateInstance :: ops' => instance_run (create_instance __instance) ops'
  | Call o :: ops' =>
      match __instance with
      | None => None
      | Some q =>
          let '(out, q1) := run q [o] in
          match instance_run (Some q1) ops' with
          | Some (outs, i) => Some (out ++ outs, i)
          | None => None
          end
      end
  end.


End WithCapacity.

End EventQueue.

(** ** JackAudioDriver *)

(** Only the declaration of the class, with its documentation, is among
    the sources; the member functions are embedded from that documentation
    and from the specification. *)

Module Instrument.
(** An instrument as the driver uses it: [Instrument::__id],
    [Instrument::__name], and for each of its components the
    [InstrumentComponent::__related_drumkit_componentID]. *)
Record t : Set := mk {
  __id : Z;
  __name : string;
  __components : list Z
}.
End Instrument.

Module DrumkitComponent.
(** [DrumkitComponent::__id] and [DrumkitComponent::__name]. *)
Record t : Set := mk { __id : Z; __name : string }.
End DrumkitComponent.

Module Song.
Record t : Set := mk {
  instrument_list : list Instrument.t;
  components : list DrumkitComponent.t
}.

(** [Song::getComponent( id )->get_name()].  The driver is only called with
    component ids the song declares; for any other id the name is empty. *)
Definition component_name (song : t) (id : Z) : string :=
  match List.find (fun c => DrumkitComponent.__id c =? id) (components song)
  with
  | Some c => DrumkitComponent.__name c
  | None => EmptyString
  end.
End Song.

Module Timebase.
(** [enum class Timebase { Master = 1, Slave = 0, None = -1 }] *)
Inductive t : Set := Master | Slave | None.

#[global] Instance eq_dec : EqDecision t.
Proof. solve_decision. Defined.
End Timebase.

Module JackAudioDriver.

(** [jack_transport_state_t], with the values the header lists. *)
Inductive jack_transport_state_t : Set :=
| JackTransportStopped
| JackTransportRolling
| JackTransportLooping
| JackTransportStarting
| JackTransportNetStarting.

#[global] Instance jack_transport_state_eq_dec :
  EqDecision jack_transport_state_t.
Proof. solve_decision. Defined.

(** *** Per-track output ports *)

Inductive channel : Set := L | R.

#[global] Instance channel_eq_dec : EqDecision channel.
Proof. solve_decision. Defined.

Definition channel_suffix (ch : channel) : string :=
  match ch with L => "_L" | R => "_R" end.

(** The calls made on the JACK client, by track number and channel. *)
Inductive jack_call : Set :=
| jack_port_register (n : nat) (ch : channel) (name : string)
| jack_port_rename (n : nat) (ch : channel) (name : string)
| jack_port_unregister (n : nat) (ch : channel).

#[global] Instance jack_call_eq_dec : EqDecision jack_call.
Proof. solve_decision. Defined.

Definition is_register (c : jack_call) : bool :=
  match c with jack_port_register _ _ _ => true | _ => false end.

Definition is_rename (c : jack_call) : bool :=
  match c with jack_port_rename _ _ _ => true | _ => false end.

Definition is_unregister (c : jack_call) : bool :=
  match c with jack_port_unregister _ _ => true | _ => false end.

(** The members the port manager works on.  [m_trackMap] is the matrix
    [int m_trackMap[MAX_INSTRUMENTS][MAX_COMPONENTS]], kept as a finite map
    from (instrument id, component id) whose absent entries read as zero;
    each port array holds, per track number, the name of the registered
    port, or [None] for a null pointer. *)
Record Ports : Type := mkPorts {
  m_trackMap : gmap (Z * Z) nat;
  m_nTrackPortCount : nat;
  m_pTrackOutputPortsL : list (option string);
  m_pTrackOutputPortsR : list (option string)
}.

(** [m_trackMap[i][j]] *)
Definition trackMap_get (p : Ports) (i j : Z) : nat :=
  default 0%nat (m_trackMap p !! (i, j)).

Definition set_port (n : nat) (ch : channel) (v : option string) (p : Ports)
  : Ports :=
  match ch with
  | L => mkPorts (m_trackMap p) (m_nTrackPortCount p)
           (<[n := v]> (m_pTrackOutputPortsL p)) (m_pTrackOutputPortsR p)
  | R => mkPorts (m_trackMap p) (m_nTrackPortCount p)
           (m_pTrackOutputPortsL p) (<[n := v]> (m_pTrackOutputPortsR p))
  end.

Definition set_pair (n : nat) (vL vR : option string) (p : Ports) : Ports :=
  set_port n R vR (set_port n L vL p).

Definition set_count (c : nat) (p : Ports) : Ports :=
  mkPorts (m_trackMap p) c (m_pTrackOutputPortsL p) (m_pTrackOutputPortsR p).

Definition set_trackMap (m : gmap (Z * Z) nat) (p : Ports) : Ports :=
  mkPorts m (m_nTrackPortCount p)
    (m_pTrackOutputPortsL p) (m_pTrackOutputPortsR p).

(** The name of a per-track port: "Track_", the component's name, "_",
    the track number plus one, "_", the instrument's name, and "_L" or
    "_R". *)
Definition track_port_name (componentName : string) (n : nat)
    (instrumentName : string) (ch : channel) : string :=
  "Track_" +:+ componentName +:+ "_" +:+ pretty (n + 1)%nat +:+ "_"
    +:+ instrumentName +:+ channel_suffix ch.

Section PortManager.

(** The name under which a port is first registered, before its rename;
    neither the header nor the specification gives it. *)
Variable provisional_name : nat -> channel -> string.

(** Registering the stereo ports [m] of [ms], in order. *)
Definition register_ports (ms : list nat) (p : Ports)
  : Ports * list jack_call :=
  foldl (fun '(p, log) m =>
           (set_pair m (Some (provisional_name m L))
                       (Some (provisional_name m R)) p,
            log ++ [jack_port_register m L (provisional_name m L);
                    jack_port_register m R (provisional_name m R)]))
        (p, []) ms.

(** The name of the port registered for track [n], if any. *)
Definition port_name (p : Ports) (n : nat) (ch : channel) : option string :=
  match ch with
  | L => mjoin (m_pTrackOutputPortsL p !! n)
  | R => mjoin (m_pTrackOutputPortsR p !! n)
  end.

(** Modelled from the spec: the body of [JackAudioDriver::setTrackOutput]
    is not among the sources.  After the port manager of 4.4 and the naming
    convention of 6: a new port pair is created if the index has not been
    used before, and an existing one is renamed if the identity at that
    index changed.  When the track number [n] is not below
    [m_nTrackPortCount], the [n + 1 - m_nTrackPortCount] missing stereo
    ports are registered and [m_nTrackPortCount] becomes [n + 1], as the
    documentation of the declaration has it; then the pair at [n] is
    renamed unless both its ports already carry the names of this
    instrument and component (a pair just created carries its provisional
    names).  The returned list is the calls made on the JACK client. *)
Definition setTrackOutput (n : nat) (instr : Instrument.t) (compo : Z)
    (song : Song.t) (p : Ports) : Ports * list jack_call :=
  let '(p1, created) :=
    if (m_nTrackPortCount p <=? n)%nat then
      let '(p', log) :=
        register_ports (seq (m_nTrackPortCount p) (n + 1 - m_nTrackPortCount p))
                       p in
      (set_count (n + 1) p', log)
    else (p, []) in
  let name ch :=
    track_port_name (Song.component_name song compo) n
                    (Instrument.__name instr) ch in
  if bool_decide (port_name p1 n L = Some (name L)
                  /\ port_name p1 n R = Some (name R))
  then (p1, created)
  else
    (set_pair n (Some (name L)) (Some (name R)) p1,
     created ++ [jack_port_rename n L (name L); jack_port_rename n R (name R)]).

(** The (instrument, component) pairs of a song in the order of the two
    nested loops. *)
Definition tracks_of (song : Song.t) : list (Instrument.t * Z) :=
  flat_map (fun instr => map (fun c => (instr, c)) (Instrument.__components instr))
           (Song.instrument_list song).

(** The assignment loop of [makeTrackOutputs], from track number
    [nTrackCount] on. *)
Fixpoint assign_tracks (song : Song.t) (ts : list (Instrument.t * Z))
    (nTrackCount : nat) (p : Ports) : Ports * list jack_call * nat :=
  match ts with
  | [] => (p, [], nTrackCount)
  | (instr, compo) :: ts' =>
      let '(p1, log1) := setTrackOutput nTrackCount instr compo song p in
      let p2 :=
        set_trackMap (<[(Instrument.__id instr, compo) := nTrackCount]>
                        (m_trackMap p1)) p1 in
      let '(p3, log3, n3) := assign_tracks song ts' (S nTrackCount) p2 in
      (p3, log1 ++ log3, n3)
  end.

(** Unregistering the ports [ns] and overwriting their entries with 0. *)
Definition release_ports (ns : list nat) (p : Ports)
  : Ports * list jack_call :=
  (foldl (fun p n => set_pair n None None p) p ns,
   flat_map (fun n => [jack_port_unregister n L; jack_port_unregister n R])
            ns).

(** Modelled from the spec: the body of [JackAudioDriver::makeTrackOutputs]
    is not among the sources.  This follows the documentation of its
    declaration and 4.4 of the specification: nothing happens unless
    [Preferences::m_bJackTrackOuts] is set; [m_trackMap] is reset to zeros;
    every component of every instrument gets the next track number through
    [setTrackOutput], which is stored in [m_trackMap]; the ports beyond the
    last assigned track are unregistered and overwritten with 0; and
    [m_nTrackPortCount] becomes the number of ports in use. *)
Definition makeTrackOutputs (m_bJackTrackOuts : bool) (song : Song.t)
    (p : Ports) : Ports * list jack_call :=
  if negb m_bJackTrackOuts then (p, [])
  else
    let p0 := set_trackMap ∅ p in
    let '(p1, log1, nTrackCount) := assign_tracks song (tracks_of song) 0 p0 in
    let '(p2, log2) :=
      release_ports (seq nTrackCount (m_nTrackPortCount p1 - nTrackCount)) p1 in
    (set_count nTrackCount p2, log1 ++ log2).

(** The driver as constructed: no ports, arrays of [MAX_INSTRUMENTS] null
    pointers. *)
Definition no_ports (MAX_INSTRUMENTS : nat) : Ports :=
  mkPorts ∅ 0 (replicate MAX_INSTRUMENTS None) (replicate MAX_INSTRUMENTS None).

(** What the assignment loop leaves, each part on its own: the names in a
    port array and the entries of [m_trackMap], for the tracks [ts]
    numbered from [n] on. *)
Definition name_of (song : Song.t) (n : nat) (t : Instrument.t * Z)
    (ch : channel) : string :=
  track_port_name (Song.component_name song (snd t)) n
                  (Instrument.__name (fst t)) ch.

Definition key_of (t : Instrument.t * Z) : Z * Z :=
  (Instrument.__id (fst t), snd t).

Fixpoint write_names (song : Song.t) (ch : channel)
    (ts : list (Instrument.t * Z)) (n : nat) (l : list (option string))
  : list (option string) :=
  match ts with
  | [] => l
  | t :: ts' =>
      write_names song ch ts' (S n) (<[n := Some (name_of song n t ch)]> l)
  end.

Fixpoint map_tracks (ts : list (Instrument.t * Z)) (n : nat)
    (m : gmap (Z * Z) nat) : gmap (Z * Z) nat :=
  match ts with
  | [] => m
  | t :: ts' => map_tracks ts' (S n) (<[key_of t := n]> m)
  end.

(** Overwriting the entries [ns] of a port array with 0. *)
Definition clear_entries (ns : list nat) (l : list (option string))
  : list (option string) :=
  foldl (fun acc n => <[n := None]> acc) l ns.

(** The port arrays have [MAX_INSTRUMENTS] entries and the port count does
    not exceed them. *)
Definition wf_ports (MAX_INSTRUMENTS : nat) (p : Ports) : Prop :=
  length (m_pTrackOutputPortsL p) = MAX_INSTRUMENTS /\
  length (m_pTrackOutputPortsR p) = MAX_INSTRUMENTS /\
  (m_nTrackPortCount p <= MAX_INSTRUMENTS)%nat.

End PortManager.

(** A provisional name: the track number plus one between "Track_" and the
    channel suffix. *)
Definition numbered_port_name (m : nat) (ch : channel) : string :=
  "Track_" +:+ pretty (m + 1)%nat +:+ channel_suffix ch.

(** The scenario of the specification: four instruments with one component
    each. *)
Definition four_instruments : Song.t :=
  Song.mk
    [Instrument.mk 0 "Kick" [0]; Instrument.mk 1 "Snare" [0];
     Instrument.mk 2 "HiHat" [0]; Instrument.mk 3 "Tom" [0]]
    [DrumkitComponent.mk 0 "Main"].

(** *** Transport synchronisation *)

(** The members transport synchronisation reads and writes:
    [m_transport.m_nFrames], whether [m_transport.m_status] is rolling,
    [m_frameOffset], [m_JackTransportState], [m_JackTransportPos.frame] and
    [m_currentPos].  [relocations] is a ghost counter: the number of times
    a relocation has been classified. *)
Record Transport : Set := mkTransport {
  m_nFrames : Z;
  m_rolling : bool;
  m_frameOffset : Z;
  m_JackTransportState : jack_transport_state_t;
  m_JackTransportPos_frame : Z;
  m_currentPos : Z;
  relocations : nat
}.

(** The driver as constructed: [m_frameOffset] is initialised with 0. *)
Definition initial_transport : Transport :=
  mkTransport 0 false 0 JackTransportStopped 0 0 0.

Section TransportSync.

(** The frame the server is expected to report: the internal position,
    which the previous cycle advanced by its buffer size if it was rolling,
    plus the offset. *)
Definition predicted_frame (t : Transport) : Z :=
  m_nFrames t + m_frameOffset t.

(** A reported frame other than the predicted one is a relocation: the
    threshold the specification leaves to the implementer is zero, the
    value it names, as the class documentation has the two positions
    always the same during normal transport. *)
Definition is_relocation (t : Transport) (frame : Z) : bool :=
  negb (frame =? predicted_frame t).

(** Snapping the internal position to the reported one; the offset of the
    old position no longer applies. *)
Definition relocate (frame : Z) (t : Transport) : Transport :=
  mkTransport frame true 0 (m_JackTransportState t)
    (m_JackTransportPos_frame t) (m_currentPos t) (S (relocations t)).

(** Modelled from the spec: the body of
    [JackAudioDriver::updateTransportInfo] is not among the sources.  This
    is the per-cycle protocol of 4.2, steps 1 to 4, with the documentation
    of the declaration and of the class: the reported state and frame are
    written to [m_JackTransportState] and [m_JackTransportPos]; while the
    server is not rolling the local transport does not progress; when it
    is rolling, also right after starting, the local transport progresses,
    and the local position is overwritten with the server's in case of a
    mismatch only, that is when the reported frame is not the predicted
    one: a relocation, one just finalised or one made by another client.
    A start that reports the predicted frame changes neither position nor
    offset. *)
Definition updateTransportInfo_position
    (st : jack_transport_state_t) (frame : Z) (t : Transport) : Transport :=
  let t1 := mkTransport (m_nFrames t) (m_rolling t) (m_frameOffset t)
              st frame frame (relocations t) in
  match st with
  | JackTransportRolling =>
      if is_relocation t frame then relocate frame t1
      else mkTransport (m_nFrames t1) true (m_frameOffset t1)
             st frame frame (relocations t1)
  | _ =>
      mkTransport (m_nFrames t1) false (m_frameOffset t1)
        st frame frame (relocations t1)
  end.

(** Modelled from the spec: the body of
    [JackAudioDriver::calculateFrameOffset] is not among the sources.  This
    is step 5 of 4.2 with the declaration's documentation: the offset is
    the external frame position minus the internal one, the external
    position being the server's while transport is rolling and [oldFrame]
    otherwise. *)
Definition calculateFrameOffset (oldFrame : Z) (t : Transport) : Transport :=
  let external :=
    if m_rolling t then m_JackTransportPos_frame t else oldFrame in
  mkTransport (m_nFrames t) (m_rolling t) (external - m_nFrames t)
    (m_JackTransportState t) (m_JackTransportPos_frame t) (m_currentPos t)
    (relocations t).

(** A change of tick size: the audio engine replaces the internal frame
    position by the frame equivalent of the same tick position under the
    new tick size, [rescaled], and has the offset recomputed. *)
Definition tickSizeChanged (rescaled : Z) (t : Transport) : Transport :=
  calculateFrameOffset (m_currentPos t)
    (mkTransport rescaled (m_rolling t) (m_frameOffset t)
       (m_JackTransportState t) (m_JackTransportPos_frame t)
       (m_currentPos t) (relocations t)).

(** The end of the process callback: while rolling, the internal position
    advances by the buffer size. *)
Definition advance (nFrames : Z) (t : Transport) : Transport :=
  if m_rolling t then
    mkTransport (m_nFrames t + nFrames) (m_rolling t) (m_frameOffset t)
      (m_JackTransportState t) (m_JackTransportPos_frame t) (m_currentPos t)
      (relocations t)
  else t.

(** What one cycle brings: the server's transport state and frame, the
    buffer size, and, when the tick size changes in this cycle, the
    rescaled internal frame position. *)
Record cycle : Set := mkCycle {
  jack_state : jack_transport_state_t;
  jack_frame : Z;
  nframes : Z;
  tick_change : option Z
}.

Definition run_cycle (t : Transport) (c : cycle) : Transport :=
  let t1 := updateTransportInfo_position (jack_state c) (jack_frame c) t in
  let t2 := match tick_change c with
            | Some rescaled => tickSizeChanged rescaled t1
            | None => t1
            end in
  advance (nframes c) t2.






End TransportSync.

(** *** Timebase master arbitration *)

(** [m_nTimebaseTracking], [m_timebaseState], the static [nWaits], and the
    frame of a relocation this process has issued and not yet reported. *)
Record TimebaseSync : Set := mkTimebaseSync {
  m_nTimebaseTracking : Z;
  m_timebaseState : Timebase.t;
  nWaits : Z;
  relocation_target : option Z
}.

(** What the timebase callback writes for the other clients: the position,
    computed from a frame, with or without the tempo. *)
Inductive broadcast (Tempo : Type) : Type :=
| PositionOnly (from_frame : Z)
| PositionAndTempo (from_frame : Z) (bpm : Tempo).

Arguments PositionOnly {Tempo} from_frame.
Arguments PositionAndTempo {Tempo} from_frame bpm.

Definition broadcasts_tempo {Tempo} (b : broadcast Tempo) : bool :=
  match b with PositionOnly _ => false | PositionAndTempo _ _ => true end.

Section TimebaseMaster.

(** The value the demotion countdown is reset to. *)
Variable TRACKING_RESET : Z.

(** Modelled from the spec: the body of
    [JackAudioDriver::initTimebaseMaster] is not among the sources.  After
    4.3: registering is a request to the server; when it is granted the
    role is Master and the countdown starts at its reset value, otherwise
    the role is None. *)
Definition initTimebaseMaster (granted : bool) (d : TimebaseSync)
  : TimebaseSync :=
  if granted then
    mkTimebaseSync TRACKING_RESET Timebase.Master (nWaits d)
      (relocation_target d)
  else
    mkTimebaseSync (-1) Timebase.None (nWaits d) (relocation_target d).

(** Modelled from the spec: [JackAudioDriver::releaseTimebaseMaster];
    after 4.3 the voluntary release returns the role to None. *)
Definition releaseTimebaseMaster (d : TimebaseSync) : TimebaseSync :=
  mkTimebaseSync (-1) Timebase.None (nWaits d) (relocation_target d).

(** The role without the master callback: Slave when another client
    supplies bar, beat and tick, otherwise None; with the matching value of
    [m_nTimebaseTracking] (zero and negative). *)
Definition demoted (bbt_valid : bool) (d : TimebaseSync) : TimebaseSync :=
  if bbt_valid then
    mkTimebaseSync 0 Timebase.Slave (nWaits d) (relocation_target d)
  else
    mkTimebaseSync (-1) Timebase.None (nWaits d) (relocation_target d).

(** The role a process has when it is not the master. *)
Definition role_without_callback (bbt_valid : bool) : Timebase.t :=
  if bbt_valid then Timebase.Slave else Timebase.None.

(** Modelled from the spec: the timebase part of
    [JackAudioDriver::updateTransportInfo], whose body is not among the
    sources.  After 4.3 and the documentation of [m_nTimebaseTracking]:
    while this process is Master and the callback is expected (the server
    is rolling), the countdown is decremented, and on reaching zero the
    role is demoted; a process that is not Master follows the presence of
    an external master. *)
Definition updateTransportInfo_timebase
    (st : jack_transport_state_t) (bbt_valid : bool) (d : TimebaseSync)
  : TimebaseSync :=
  match m_timebaseState d with
  | Timebase.Master =>
      match st with
      | JackTransportRolling =>
          let n := m_nTimebaseTracking d - 1 in
          if n <=? 0 then demoted bbt_valid d
          else mkTimebaseSync n Timebase.Master (nWaits d)
                 (relocation_target d)
      | _ => d
      end
  | _ => demoted bbt_valid d
  end.

(** Modelled from the spec: the body of
    [JackAudioDriver::locateTransport] is not among the sources.  After
    4.3 and the documentation of [nWaits]: a relocation issued while this
    process is Master makes the timebase callback wait two cycles before
    it broadcasts the tempo again, and is remembered as the frame the next
    position update starts from. *)
Definition locateTransport (nFrame : Z) (d : TimebaseSync) : TimebaseSync :=
  match m_timebaseState d with
  | Timebase.Master =>
      mkTimebaseSync (m_nTimebaseTracking d) (m_timebaseState d) 2
        (Some nFrame)
  | _ => d
  end.

(** Modelled from the spec: the body of
    [JackAudioDriver::JackTimebaseCallback] is not among the sources.
    After 4.3 and the documentation of [nWaits] and
    [m_nTimebaseTracking]: the server calls it only for the timebase
    master, so the role is Master and the countdown is reset; while
    [nWaits] is positive it is decremented and only the position is
    written, computed from the target of a relocation still to be reported
    or else from the frame the server passes; otherwise position and tempo
    are written. *)
Definition JackTimebaseCallback {Tempo : Type}
    (pos_frame : Z) (bpm : Tempo) (d : TimebaseSync)
  : TimebaseSync * broadcast Tempo :=
  if 0 <? nWaits d then
    (mkTimebaseSync TRACKING_RESET Timebase.Master (nWaits d - 1) None,
     PositionOnly (default pos_frame (relocation_target d)))
  else
    (mkTimebaseSync TRACKING_RESET Timebase.Master (nWaits d) None,
     PositionAndTempo pos_frame bpm).

(** [n] cycles in which the server is rolling and does not call the
    timebase callback. *)
Fixpoint cycles_without_callback (n : nat) (bbt_valid : bool)
    (d : TimebaseSync) : TimebaseSync :=
  match n with
  | O => d
  | S n' =>
      cycles_without_callback n' bbt_valid
        (updateTransportInfo_timebase JackTransportRolling bbt_valid d)
  end.

(** Rolling cycles in which the callback is called after each evaluation
    of the transport; per cycle, the frame and the tempo passed to it. *)
Fixpoint cycles_with_callback {Tempo : Type} (cs : list (Z * Tempo))
    (d : TimebaseSync) : TimebaseSync * list (broadcast Tempo) :=
  match cs with
  | [] => (d, [])
  | (pos_frame, bpm) :: cs' =>
      let d1 := updateTransportInfo_timebase JackTransportRolling false d in
      let '(d2, b) := JackTimebaseCallback pos_frame bpm d1 in
      let '(d3, bs) := cycles_with_callback cs' d2 in
      (d3, b :: bs)
  end.

End TimebaseMaster.

End JackAudioDriver.

(** ** The helpers of the XML tests *)

(** [src/tests/xml_test.cpp]: the two static helpers that compute
    something, [file_cmp] and [check_samples_data]. *)

Module XmlTest.

(** *** [file_cmp] *)

(** One reading loop of [file_cmp]: [n] counts the lines read so far, and a
    line is appended to the list once [n] exceeds [skip].  [lines] is what
    the successive [readLine] calls return until [atEnd]. *)
Fixpoint read_skipping (lines : list string) (n skip : Z)
    (textOfFile : list string) : list string :=
  match lines with
  | [] => textOfFile
  | line :: lines' =>
      let n := n + 1 in
      read_skipping lines' n skip
        (if skip <? n then textOfFile ++ [line] else textOfFile)
  end.

(** The comparison loop from index [i] on, [fuel] being the iterations
    left: [false] as soon as two lines differ. *)
Fixpoint lines_equal_from (textOfFile0 textOfFile1 : list string)
    (i fuel : nat) : bool :=
  match fuel with
  | O => true
  | S fuel' =>
      if negb (String.eqb (nth i textOfFile0 EmptyString)
                          (nth i textOfFile1 EmptyString))
      then false
      else lines_equal_from textOfFile0 textOfFile1 (S i) fuel'
  end.

(** [static bool file_cmp(const QString& f0, const QString& f1, int skip)],
    on the lines the two files yield. *)
Definition file_cmp (f0 f1 : list string) (skip : Z) : bool :=
  let textOfFile0 := read_skipping f0 0 skip [] in
  let textOfFile1 := read_skipping f1 0 skip [] in
  if negb (length textOfFile0 =? length textOfFile1)%nat then false
  else lines_equal_from textOfFile0 textOfFile1 0 (length textOfFile0).

(** *** [check_samples_data] *)

Section Samples.

(** What [Sample::get_data_l()] and [get_data_r()] point to. *)
Variable Data : Type.

(** The accessors the helper uses.  A sample has its two channel buffers,
    each possibly null; a layer has its sample; a component has its layers
    by index, [get_layer] giving null where there is none; an instrument
    has its components; the drumkit's instrument list is a list. *)
Record Sample : Type := mkSample {
  get_data_l : option Data;
  get_data_r : option Data
}.

Record InstrumentLayer : Type := mkLayer { get_sample : Sample }.

Record InstrumentComponent : Type := mkComponent {
  layers : list (option InstrumentLayer)
}.

Definition get_layer (c : InstrumentComponent) (nLayer : nat)
  : option InstrumentLayer :=
  mjoin (layers c !! nLayer).

Record DrumkitInstrument : Type := mkInstrument {
  get_components : list InstrumentComponent
}.

(** [InstrumentComponent::getMaxLayers()] after [setMaxLayers( 16 )]. *)
Definition getMaxLayers : nat := 16.

Definition is_null {A} (p : option A) : bool :=
  match p with None => true | Some _ => false end.

(** The body of the innermost loop for one layer: [false] when the
    function returns [false] there.  Both tests of each branch are on
    [get_data_l()], as in the source. *)
Definition layer_passes (loaded : bool) (pLayer : option InstrumentLayer)
  : bool :=
  match pLayer with
  | None => true
  | Some layer =>
      let pSample := get_sample layer in
      if loaded then
        if is_null (get_data_l pSample) || is_null (get_data_l pSample)
        then false else true
      else
        if negb (is_null (get_data_l pSample))
           || negb (is_null (get_data_l pSample))
        then false else true
  end.

(** The loop over [nLayer], from [nLayer] with [fuel] iterations left. *)
Fixpoint layers_loop (loaded : bool) (pComponent : InstrumentComponent)
    (nLayer fuel : nat) : bool :=
  match fuel with
  | O => true
  | S fuel' =>
      if layer_passes loaded (get_layer pComponent nLayer)
      then layers_loop loaded pComponent (S nLayer) fuel'
      else false
  end.

(** The loop over the components of an instrument. *)
Fixpoint components_loop (loaded : bool) (cs : list InstrumentComponent)
  : bool :=
  match cs with
  | [] => true
  | pComponent :: cs' =>
      if layers_loop loaded pComponent 0 getMaxLayers
      then components_loop loaded cs'
      else false
  end.

(** The loop over the instruments: [None] when the function has returned
    [false], otherwise the value of [count] at the end. *)
Fixpoint instruments_loop (loaded : bool) (instruments : list DrumkitInstrument)
    (count : Z) : option Z :=
  match instruments with
  | [] => Some count
  | pInstr :: instruments' =>
      let count := count + 1 in
      if components_loop loaded (get_components pInstr)
      then instruments_loop loaded instruments' count
      else None
  end.

(** [static bool check_samples_data( H2Core::Drumkit* dk, bool loaded )],
    on the instrument list of [dk]. *)
Definition check_samples_data (instruments : list DrumkitInstrument)
    (loaded : bool) : bool :=
  match instruments_loop loaded instruments 0 with
  | None => false
  | Some count => count =? 4
  end.

(** Replacing the right channel of every sample. *)
Definition with_data_r_sample (r : option Data) (s : Sample) : Sample :=
  mkSample (get_data_l s) r.

Definition with_data_r_component (r : option Data) (c : InstrumentComponent)
  : InstrumentComponent :=
  mkComponent
    (map (option_map (fun l => mkLayer (with_data_r_sample r (get_sample l))))
         (layers c)).

Definition with_data_r (r : option Data) (instruments : list DrumkitInstrument)
  : list DrumkitInstrument :=
  map (fun i => mkInstrument (map (with_data_r_component r) (get_components i)))
      instruments.

(** Every layer the helper looks at, in every component of every
    instrument, has a left buffer exactly when [loaded]. *)
Definition left_buffers_match (instruments : list DrumkitInstrument)
    (loaded : bool) : Prop :=
  forall pInstr pComponent nLayer layer,
    In pInstr instruments ->
    In pComponent (get_components pInstr) ->
    (nLayer < getMaxLayers)%nat ->
    get_layer pComponent nLayer = Some layer ->
    is_null (get_data_l (get_sample layer)) = negb loaded.

End Samples.

Arguments mkSample {Data} get_data_l get_data_r.
Arguments get_data_l {Data} s.
Arguments get_data_r {Data} s.
Arguments mkLayer {Data} get_sample.
Arguments get_sample {Data} i.
Arguments mkComponent {Data} layers.
Arguments layers {Data} i.
Arguments get_layer {Data} c nLayer.
Arguments mkInstrument {Data} get_components.
Arguments get_components {Data} d.
Arguments layer_passes {Data} loaded pLayer.
Arguments layers_loop {Data} loaded pComponent nLayer fuel.
Arguments components_loop {Data} loaded cs.
Arguments instruments_loop {Data} loaded instruments count.
Arguments check_samples_data {Data} instruments loaded.
Arguments with_data_r_sample {Data} r s.
Arguments with_data_r_component {Data} r c.
Arguments with_data_r {Data} r instruments.
Arguments left_buffers_match {Data} instruments loaded.

End XmlTest.


(** * Properties *)

(** ** Unsigned counters *)

Lemma UINT_MODULUS_pos : 0 < UINT_MODULUS.
Proof. reflexivity. Qed.

Lemma pre_increment_range c : 0 <= pre_increment c < UINT_MODULUS.
Proof. apply Z.mod_pos_bound, UINT_MODULUS_pos. Qed.

Lemma UINT_MODULUS_value : UINT_MODULUS = 4294967296.
Proof. reflexivity. Qed.

#[global] Opaque UINT_MODULUS.

(** Linear arithmetic that knows the value of the modulus. *)
Ltac uint_lia := pose proof UINT_MODULUS_value; lia.

Lemma pre_increment_neq c : 0 <= c < UINT_MODULUS -> pre_increment c <> c.
Proof.
  intros Hc. unfold pre_increment.
  destruct (Z.eq_dec (c + 1) UINT_MODULUS) as [E|E].
  - rewrite E, Z.mod_same by uint_lia. uint_lia.
  - rewrite Z.mod_small by uint_lia. uint_lia.
Qed.

Lemma pre_increment_mod c : pre_increment (c mod UINT_MODULUS) = pre_increment c.
Proof.
  unfold pre_increment. apply Z.add_mod_idemp_l. uint_lia.
Qed.

Lemma mod_shift_neq (a d C : Z) :
  0 < d < C -> (a + d) mod C <> a mod C.
Proof.
  intros Hd E.
  assert (Hz : ((a + d) - a) mod C = 0).
  { rewrite Zminus_mod, E, Z.sub_diag. apply Z.mod_0_l. lia. }
  replace (a + d - a) with d in Hz by lia.
  rewrite Z.mod_small in Hz by lia. lia.
Qed.

(** ** EventQueue *)

Module EventQueueFacts.
Import EventQueue.

Section WithCapacity.

Variable MAX_EVENTS : Z.
Hypothesis MAX_EVENTS_pos : 0 < MAX_EVENTS.

Local Abbreviation slot := (slot MAX_EVENTS).
Local Abbreviation push_event := (push_event MAX_EVENTS).
Local Abbreviation pop_event := (pop_event MAX_EVENTS).
Local Abbreviation push_all := (push_all MAX_EVENTS).
Local Abbreviation pop_n := (pop_n MAX_EVENTS).
Local Abbreviation drain := (drain MAX_EVENTS).
Local Abbreviation wf := (wf MAX_EVENTS).
Local Abbreviation create := (create MAX_EVENTS).
Local Abbreviation wrap_free := (wrap_free MAX_EVENTS).
Local Abbreviation latest_index := (latest_index MAX_EVENTS).
Local Abbreviation stale_reads := (stale_reads MAX_EVENTS).

Lemma wrap_free_small w n :
  0 <= w -> w + n < UINT_MODULUS -> wrap_free w n.
Proof.
  intros Hw Hn i Hi. rewrite (Z.mod_small (w + i)); [done | lia].
Qed.

Lemma wrap_free_divide w n :
  (MAX_EVENTS | UINT_MODULUS) -> wrap_free w n.
Proof. intros Hd i _. by apply Z.mod_mod_divide. Qed.

Lemma wrap_free_le w n m : m <= n -> wrap_free w n -> wrap_free w m.
Proof. intros Hle H i Hi. apply H. lia. Qed.

Lemma slot_in_range c : (slot c < Z.to_nat MAX_EVENTS)%nat.
Proof.
  unfold EventQueue.slot.
  pose proof (Z.mod_pos_bound c MAX_EVENTS MAX_EVENTS_pos). lia.
Qed.

Lemma slot_eq_iff a b :
  slot a = slot b <-> a mod MAX_EVENTS = b mod MAX_EVENTS.
Proof.
  unfold EventQueue.slot.
  pose proof (Z.mod_pos_bound a MAX_EVENTS MAX_EVENTS_pos).
  pose proof (Z.mod_pos_bound b MAX_EVENTS MAX_EVENTS_pos).
  split; intros; [lia | congruence].
Qed.

Lemma wf_create : wf create.
Proof.
  unfold EventQueue.wf, EventQueue.create; simpl.
  rewrite length_replicate. repeat split; uint_lia.
Qed.

Lemma wf_push q ty v : wf q -> wf (push_event q ty v).
Proof.
  intros (Hr & Hw & Hl). unfold EventQueue.wf, EventQueue.push_event; simpl.
  rewrite length_insert. pose proof (pre_increment_range (__write_index q)).
  tauto.
Qed.

Lemma wf_pop q : wf q -> wf (snd (pop_event q)).
Proof.
  intros (Hr & Hw & Hl). unfold EventQueue.wf, EventQueue.pop_event.
  destruct (_ =? _); simpl; [tauto |].
  pose proof (pre_increment_range (__read_index q)). tauto.
Qed.

Lemma push_all_snoc q evs e :
  push_all q (evs ++ [e]) = push_event (push_all q evs) (type e) (value e).
Proof. unfold EventQueue.push_all. by rewrite foldl_app. Qed.

Lemma wf_push_all q evs : wf q -> wf (push_all q evs).
Proof.
  intros Hq. induction evs as [|e evs IH] using rev_ind; [done |].
  rewrite push_all_snoc. by apply wf_push.
Qed.

Lemma read_push_all q evs :
  __read_index (push_all q evs) = __read_index q.
Proof.
  induction evs as [|e evs IH] using rev_ind; [done |].
  by rewrite push_all_snoc.
Qed.

Lemma write_push_all q evs :
  wf q ->
  __write_index (push_all q evs)
  = (__write_index q + Z.of_nat (length evs)) mod UINT_MODULUS.
Proof.
  intros Hq. induction evs as [|e evs IH] using rev_ind.
  - simpl. destruct Hq as (_ & Hw & _).
    rewrite Z.add_0_r, Z.mod_small; [done | lia].
  - rewrite push_all_snoc, length_app; simpl.
    rewrite IH, pre_increment_mod. unfold pre_increment. f_equal. lia.
Qed.

(** *** What the array holds after a run of pushes *)

(** After pushing [evs], the slot addressed by the counter of the [i]-th
    push still holds that event, for each of the last [MAX_EVENTS] pushes. *)
Lemma push_all_lookup q evs i :
  wf q ->
  wrap_free (__write_index q) (Z.of_nat (length evs)) ->
  (i < length evs)%nat ->
  (length evs <= i + Z.to_nat MAX_EVENTS)%nat ->
  __events_buffer (push_all q evs)
    !! slot ((__write_index q + Z.of_nat (S i)) mod UINT_MODULUS)
  = evs !! i.
Proof.
  intros Hq. revert i.
  induction evs as [|e evs IH] using rev_ind; intros i Hfree Hi Hwin.
  { simpl in Hi. lia. }
  rewrite length_app in Hfree, Hi, Hwin; simpl in Hfree, Hi, Hwin.
  rewrite push_all_snoc. unfold EventQueue.push_event; simpl.
  rewrite write_push_all, pre_increment_mod by done.
  unfold pre_increment.
  pose proof (wf_push_all q evs Hq) as (_ & _ & Hlen).
  destruct (decide (i = length evs)) as [->|Hne].
  - replace (__write_index q + Z.of_nat (length evs) + 1)
      with (__write_index q + Z.of_nat (S (length evs))) by lia.
    rewrite list_lookup_insert_eq.
    + rewrite lookup_app_r by lia. rewrite Nat.sub_diag. by destruct e.
    + rewrite Hlen. apply slot_in_range.
  - rewrite list_lookup_insert_ne.
    + rewrite lookup_app_l by lia. apply IH; [|lia|lia].
      eapply wrap_free_le; [|exact Hfree]. lia.
    + rewrite slot_eq_iff.
      replace (__write_index q + Z.of_nat (length evs) + 1)
        with (__write_index q + Z.of_nat (S (length evs))) by lia.
      rewrite !Hfree by lia.
      replace (__write_index q + Z.of_nat (S (length evs)))
        with (__write_index q + Z.of_nat (S i)
              + (Z.of_nat (length evs) - Z.of_nat i)) by lia.
      apply mod_shift_neq. lia.
Qed.

(** *** What a run of pops returns *)

Lemma pending_range q : 0 <= pending q < UINT_MODULUS.
Proof. apply Z.mod_pos_bound, UINT_MODULUS_pos. Qed.

Lemma pending_zero_iff q :
  wf q -> pending q = 0 <-> __read_index q = __write_index q.
Proof.
  intros (Hr & Hw & _). unfold pending. split.
  - intros H.
    destruct (Z_lt_le_dec (__write_index q) (__read_index q)).
    + replace (__write_index q - __read_index q)
        with (__write_index q - __read_index q + UINT_MODULUS
              + (-1) * UINT_MODULUS) in H by lia.
      rewrite Z.mod_add, Z.mod_small in H; uint_lia.
    + rewrite Z.mod_small in H; lia.
  - intros ->. rewrite Z.sub_diag. apply Z.mod_0_l. uint_lia.
Qed.

Lemma pop_event_nonempty q :
  __read_index q <> __write_index q ->
  pop_event q =
    (__events_buffer q !!! slot (pre_increment (__read_index q)),
     mkQueue (pre_increment (__read_index q)) (__write_index q)
             (__events_buffer q)).
Proof.
  intros Hne. unfold EventQueue.pop_event.
  destruct (Z.eqb_spec (__read_index q) (__write_index q)); done.
Qed.

Lemma pending_after_pop q :
  wf q -> pending q <> 0 ->
  pending (mkQueue (pre_increment (__read_index q)) (__write_index q)
                   (__events_buffer q)) = pending q - 1.
Proof.
  intros Hq Hp. pose proof (pending_range q) as Hrange.
  unfold pending in *; simpl. unfold pre_increment.
  rewrite Zminus_mod_idemp_r.
  replace (__write_index q - (__read_index q + 1))
    with ((__write_index q - __read_index q) + (-1)) by lia.
  rewrite <- Z.add_mod_idemp_l by uint_lia.
  apply Z.mod_small. lia.
Qed.

(** [n] pops on a queue with at least [n] pending events read the slots of
    the next [n] counter values and leave the array alone. *)
Lemma pop_n_spec n q :
  wf q -> Z.of_nat n <= pending q ->
  pop_n n q =
    (map (fun i : nat =>
            __events_buffer q
              !!! slot ((__read_index q + Z.of_nat (S i)) mod UINT_MODULUS))
         (seq 0 n),
     mkQueue ((__read_index q + Z.of_nat n) mod UINT_MODULUS)
             (__write_index q) (__events_buffer q)).
Proof.
  revert q. induction n as [|n IH]; intros q Hq Hn.
  - simpl. destruct q as [r w b]; simpl. destruct Hq as (Hr & _ & _).
    simpl in Hr. rewrite Z.add_0_r, Z.mod_small; [done | lia].
  - assert (Hp : pending q <> 0) by lia.
    assert (Hne : __read_index q <> __write_index q).
    { intros E. apply Hp. by apply pending_zero_iff. }
    cbn [EventQueue.pop_n]. rewrite (pop_event_nonempty q Hne).
    set (q1 := mkQueue _ _ _).
    assert (Hq1 : wf q1).
    { pose proof (wf_pop q Hq) as H. by rewrite pop_event_nonempty in H. }
    rewrite (IH q1 Hq1).
    2:{ unfold q1. rewrite pending_after_pop by done. lia. }
    unfold q1. cbn [__read_index __write_index __events_buffer].
    rewrite <- (cons_seq n 0), map_cons, <- seq_shift, map_map.
    assert (Hstep : forall k : Z,
      (pre_increment (__read_index q) + k) mod UINT_MODULUS
      = (__read_index q + (k + 1)) mod UINT_MODULUS).
    { intros k. unfold pre_increment.
      rewrite Z.add_mod_idemp_l by uint_lia. f_equal. lia. }
    f_equal; [f_equal |].
    + apply map_ext. intros i. rewrite Hstep. do 3 f_equal. lia.
    + rewrite Hstep. do 2 f_equal. lia.
Qed.

Lemma latest_index_bounds n j :
  (j < n)%nat ->
  (j <= latest_index n j < n)%nat /\
  (n <= latest_index n j + Z.to_nat MAX_EVENTS)%nat.
Proof.
  intros Hj. unfold EventQueue.latest_index.
  assert (HC : Z.to_nat MAX_EVENTS <> 0%nat) by lia.
  pose proof (Nat.Div0.mul_div_le (n - 1 - j) (Z.to_nat MAX_EVENTS)).
  pose proof (Nat.mul_succ_div_gt (n - 1 - j) _ HC).
  lia.
Qed.

Lemma latest_index_recent n j :
  (j < n)%nat -> (n <= j + Z.to_nat MAX_EVENTS)%nat -> latest_index n j = j.
Proof.
  intros Hj Hn. unfold EventQueue.latest_index.
  rewrite Nat.div_small by lia. lia.
Qed.

Lemma latest_index_slot w n j :
  wrap_free w (Z.of_nat n) -> (j < n)%nat ->
  slot ((w + Z.of_nat (S j)) mod UINT_MODULUS)
  = slot ((w + Z.of_nat (S (latest_index n j))) mod UINT_MODULUS).
Proof.
  intros Hfree Hj. pose proof (latest_index_bounds n j Hj) as [Hb _].
  rewrite slot_eq_iff, !Hfree by lia.
  unfold EventQueue.latest_index.
  set (m := ((n - 1 - j) / Z.to_nat MAX_EVENTS)%nat).
  replace (w + Z.of_nat (S (j + Z.to_nat MAX_EVENTS * m)))
    with (w + Z.of_nat (S j) + Z.of_nat m * MAX_EVENTS).
  - by rewrite Z.mod_add by lia.
  - rewrite !Nat2Z.inj_succ, Nat2Z.inj_add, Nat2Z.inj_mul, Z2Nat.id by lia.
    lia.
Qed.

Lemma pending_push_all q evs :
  wf q -> __read_index q = __write_index q ->
  Z.of_nat (length evs) < UINT_MODULUS ->
  pending (push_all q evs) = Z.of_nat (length evs).
Proof.
  intros Hq He Hn. unfold pending.
  rewrite read_push_all, write_push_all, He, Zminus_mod_idemp_l by done.
  replace (__write_index q + Z.of_nat (length evs) - __write_index q)
    with (Z.of_nat (length evs)) by lia.
  apply Z.mod_small. lia.
Qed.

(** Pushing [evs] onto an empty queue and popping as many times: every pop
    returns the latest event written to the slot it reads. *)
Lemma pop_n_push_all q evs :
  wf q -> __read_index q = __write_index q ->
  wrap_free (__write_index q) (Z.of_nat (length evs)) ->
  Z.of_nat (length evs) < UINT_MODULUS ->
  pop_n (length evs) (push_all q evs)
  = (stale_reads evs (length evs),
     mkQueue (__write_index (push_all q evs))
             (__write_index (push_all q evs))
             (__events_buffer (push_all q evs))).
Proof.
  intros Hq He Hfree Hn.
  rewrite pop_n_spec;
    [| by apply wf_push_all | by rewrite pending_push_all; [lia | ..]].
  rewrite read_push_all, He, <- write_push_all by done.
  f_equal. unfold EventQueue.stale_reads. apply map_ext_in. intros j Hj.
  apply in_seq in Hj.
  pose proof (latest_index_bounds (length evs) j ltac:(lia)) as [Hb Hw].
  apply list_lookup_total_correct.
  rewrite (latest_index_slot _ (length evs)) by (done || lia).
  rewrite push_all_lookup by (done || lia).
  apply list_lookup_lookup_total_lt. lia.
Qed.

(** The consumer loop stops after exactly [n] events when the first [n]
    pops return typed events and leave the cursors equal. *)
Lemma drain_pop_n n : forall fuel q l q',
  pop_n n q = (l, q') ->
  Forall (fun e => type e <> EVENT_NONE) l ->
  __read_index q' = __write_index q' ->
  (n < fuel)%nat ->
  drain fuel q = Some (l, q').
Proof.
  induction n as [|n IH]; intros fuel q l q' Hpop Hty Heq Hfuel.
  - simpl in Hpop. injection Hpop as <- <-.
    destruct fuel as [|fuel]; [lia |]. simpl.
    unfold EventQueue.pop_event. rewrite Heq, Z.eqb_refl. done.
  - destruct fuel as [|fuel]; [lia |].
    simpl in Hpop |- *.
    destruct (pop_event q) as [ev q1].
    destruct (pop_n n q1) as [evs q2] eqn:Hrest.
    injection Hpop as <- <-.
    apply Forall_cons in Hty as [Hev Hevs].
    rewrite (IH fuel q1 evs q2) by (done || lia).
    by destruct (type ev).
Qed.

Lemma map_seq_offset {A} (f : nat -> A) k m :
  map f (seq k m) = map (fun j => f (k + j)%nat) (seq 0 m).
Proof.
  revert k f. induction m as [|m IH]; intros k f; [done |].
  cbn [seq map]. rewrite Nat.add_0_r. f_equal.
  rewrite IH, <- seq_shift, map_map.
  apply map_ext. intros j. f_equal. lia.
Qed.

Lemma map_lookup_total_all (l : list Event) :
  map (fun j => l !!! j) (seq 0 (length l)) = l.
Proof.
  induction l as [|x l IH]; [done |].
  cbn [length seq map]. f_equal.
  rewrite <- seq_shift, map_map. exact IH.
Qed.

Lemma map_lookup_total_drop (l : list Event) k :
  map (fun j => l !!! j) (seq k (length l - k)) = drop k l.
Proof.
  rewrite map_seq_offset, <- length_drop.
  rewrite <- (map_lookup_total_all (drop k l)) at 2.
  apply map_ext. intros j. by rewrite lookup_total_drop.
Qed.

Lemma stale_reads_split evs k :
  (k <= length evs)%nat ->
  (length evs <= k + Z.to_nat MAX_EVENTS)%nat ->
  stale_reads evs (length evs) = stale_reads evs k ++ drop k evs.
Proof.
  intros Hk Hn. unfold EventQueue.stale_reads.
  assert (seq 0 (length evs) = seq 0 k ++ seq k (length evs - k)) as ->.
  { rewrite <- seq_app. f_equal. lia. }
  rewrite map_app. f_equal.
  rewrite <- map_lookup_total_drop. apply map_ext_in. intros j Hj.
  apply in_seq in Hj. f_equal. apply latest_index_recent; lia.
Qed.

Lemma stale_reads_elem evs k e :
  (length evs = k + Z.to_nat MAX_EVENTS)%nat ->
  In e (stale_reads evs k) -> In e (drop k evs).
Proof.
  intros Hn Hin. unfold EventQueue.stale_reads in Hin.
  apply in_map_iff in Hin as (j & <- & Hj). apply in_seq in Hj.
  pose proof (latest_index_bounds (length evs) j ltac:(lia)) as [Hb Hw].
  set (i := latest_index (length evs) j) in *.
  replace i with (k + (i - k))%nat by lia.
  rewrite <- lookup_total_drop.
  apply list_elem_of_In, list_elem_of_lookup_total_2. rewrite length_drop. lia.
Qed.

(** FIFO order below capacity: what was pushed onto an empty queue comes
    back in push order, and the queue is empty again. *)
Lemma fifo_push_pop q evs :
  wf q -> __read_index q = __write_index q ->
  wrap_free (__write_index q) (Z.of_nat (length evs)) ->
  Z.of_nat (length evs) <= MAX_EVENTS ->
  Z.of_nat (length evs) < UINT_MODULUS ->
  pop_n (length evs) (push_all q evs)
  = (evs, mkQueue (__write_index (push_all q evs))
                  (__write_index (push_all q evs))
                  (__events_buffer (push_all q evs))).
Proof.
  intros Hq He Hfree Hcap Hn. rewrite pop_n_push_all by done.
  f_equal. rewrite (stale_reads_split evs 0) by lia.
  by rewrite drop_0.
Qed.

Lemma pop_n_succ_r n q :
  pop_n (S n) q =
    let '(l, q1) := pop_n n q in
    let '(ev, q2) := pop_event q1 in
    (l ++ [ev], q2).
Proof.
  revert q. induction n as [|n IH]; intros q.
  - simpl. by destruct (pop_event q).
  - change (pop_n (S (S n)) q)
      with (let '(ev, q1) := pop_event q in
            let '(evs, q2) := pop_n (S n) q1 in (ev :: evs, q2)).
    cbn [EventQueue.pop_n] in *. destruct (pop_event q) as [ev q1].
    rewrite IH. destruct (pop_n n q1) as [l q2].
    by destruct (pop_event q2).
Qed.

(** *** The empty path of [pop_event] *)

Lemma pop_event_empty q :
  __read_index q = __write_index q ->
  pop_event q = (mkEvent EVENT_NONE 0, q).
Proof.
  intros He. unfold EventQueue.pop_event.
  by destruct (Z.eqb_spec (__read_index q) (__write_index q)).
Qed.

(** C10.  When the read index equals the write index, [pop_event] returns
    the event [{EVENT_NONE, 0}] and the queue is exactly as it was: neither
    cursor moves and the array is untouched (the result does not depend on
    any slot). *)
Theorem pop_event_empty_unchanged (q : t) :
  __read_index q = __write_index q ->
  pop_event q = (mkEvent EVENT_NONE 0, q) /\
  type (fst (pop_event q)) = EVENT_NONE /\
  value (fst (pop_event q)) = 0 /\
  __read_index (snd (pop_event q)) = __read_index q /\
  __write_index (snd (pop_event q)) = __write_index q /\
  __events_buffer (snd (pop_event q)) = __events_buffer q.
Proof.
  intros He. rewrite (pop_event_empty q He). repeat split.
Qed.

Lemma pop_event_sentinel_iff q :
  wf q ->
  pop_event q = (mkEvent EVENT_NONE 0, q)
  <-> __read_index q = __write_index q.
Proof.
  intros (Hr & _ & _). split.
  - intros Hpop.
    destruct (Z.eq_dec (__read_index q) (__write_index q)) as [|Hne]; [done |].
    rewrite pop_event_nonempty in Hpop by done.
    injection Hpop as _ Hq.
    apply (f_equal __read_index) in Hq; simpl in Hq.
    by apply pre_increment_neq in Hq.
  - apply pop_event_empty.
Qed.

(** *** First in, first out *)

(** C2.  On an empty queue that can hold three events, pushing A, B and C
    and popping four times returns A, B, C in that order and then the
    [EVENT_NONE] sentinel; and [pop_event] takes its sentinel path, leaving
    the queue as it is, exactly when the read cursor equals the write
    cursor. *)
Theorem push_three_pop_four q tA vA tB vB tC vC :
  wf q ->
  __read_index q = __write_index q ->
  __write_index q + 3 < UINT_MODULUS ->
  3 <= MAX_EVENTS ->
  fst (pop_n 4 (push_event (push_event (push_event q tA vA) tB vB) tC vC))
  = [mkEvent tA vA; mkEvent tB vB; mkEvent tC vC; mkEvent EVENT_NONE 0]
  /\ (forall q0, wf q0 ->
        pop_event q0 = (mkEvent EVENT_NONE 0, q0)
        <-> __read_index q0 = __write_index q0).
Proof.
  intros Hq He Hw Hcap. split; [| exact pop_event_sentinel_iff].
  set (evs := [mkEvent tA vA; mkEvent tB vB; mkEvent tC vC]).
  change (push_event (push_event (push_event q tA vA) tB vB) tC vC)
    with (push_all q evs).
  rewrite (pop_n_succ_r 3).
  change 3%nat with (length evs).
  rewrite fifo_push_pop;
    [ | exact Hq | exact He
      | apply wrap_free_small; [apply Hq | simpl; lia]
      | simpl; lia | simpl; uint_lia ].
  unfold EventQueue.pop_event; simpl. by rewrite Z.eqb_refl.
Qed.

(** *** Overflow *)

(** C1, as the code has it.  [push_event] is a total function: every push
    returns at once.  After [MAX_EVENTS + k] pushes ([k > 0], no counter
    wrap) of typed events onto an empty queue, the consumer loop returns
    [MAX_EVENTS + k] events, not [MAX_EVENTS]: first [k] re-reads of slots
    that were overwritten, each of them one of the most recent [MAX_EVENTS]
    events, then the most recent [MAX_EVENTS] events in push order.  None of
    the first [k] pushed events is returned. *)
Theorem overflow_drain q evs (k fuel : nat) :
  wf q ->
  __read_index q = __write_index q ->
  Forall (fun e => type e <> EVENT_NONE) evs ->
  (0 < k)%nat ->
  Z.of_nat (length evs) = MAX_EVENTS + Z.of_nat k ->
  __write_index q + Z.of_nat (length evs) < UINT_MODULUS ->
  (length evs < fuel)%nat ->
  fst <$> drain fuel (push_all q evs)
    = Some (stale_reads evs k ++ drop k evs)
  /\ length (stale_reads evs k) = k
  /\ Z.of_nat (length (drop k evs)) = MAX_EVENTS
  /\ (forall e, In e (stale_reads evs k) -> In e (drop k evs)).
Proof.
  intros Hq He Hty Hk Hlen Hw Hfuel.
  assert (Hn : (length evs = k + Z.to_nat MAX_EVENTS)%nat) by lia.
  repeat split.
  - rewrite <- stale_reads_split by lia.
    erewrite drain_pop_n; [done | | | | exact Hfuel].
    + apply pop_n_push_all; try done.
      * apply wrap_free_small; [apply Hq | lia].
      * destruct Hq as (_ & Hq & _). lia.
    + apply Forall_forall. intros e Hin.
      rewrite (stale_reads_split evs k) in Hin by lia.
      assert (Hd : e ∈ drop k evs).
      { apply elem_of_app in Hin as [Hin|Hin]; [| done].
        apply list_elem_of_In, stale_reads_elem; [done |].
        by apply list_elem_of_In. }
      rewrite Forall_forall in Hty. apply Hty.
      eapply (subseteq_drop k evs), Hd.
    + done.
  - unfold EventQueue.stale_reads. by rewrite length_map, length_seq.
  - rewrite length_drop. lia.
  - intros e. by apply stale_reads_elem.
Qed.

(** *** Cursors and wrap-around *)

Local Abbreviation contents := (contents MAX_EVENTS).
Local Abbreviation run := (run MAX_EVENTS).
Local Abbreviation fifo_run := (fifo_run MAX_EVENTS).

Lemma length_contents q : length (contents q) = Z.to_nat (pending q).
Proof. unfold EventQueue.contents. by rewrite length_map, length_seq. Qed.

Lemma write_from_pending q :
  wf q -> (__read_index q + pending q) mod UINT_MODULUS = __write_index q.
Proof.
  intros (_ & Hw & _). unfold pending.
  rewrite Z.add_mod_idemp_r by uint_lia.
  replace (__read_index q + (__write_index q - __read_index q))
    with (__write_index q) by lia.
  apply Z.mod_small. lia.
Qed.

Lemma pending_after_push q ty v :
  pending q + 1 < UINT_MODULUS ->
  pending (push_event q ty v) = pending q + 1.
Proof.
  intros Hp. pose proof (pending_range q) as Hrange.
  unfold pending in *; simpl. unfold pre_increment.
  rewrite Zminus_mod_idemp_l.
  replace (__write_index q + 1 - __read_index q)
    with ((__write_index q - __read_index q) + 1) by lia.
  rewrite <- Z.add_mod_idemp_l by uint_lia.
  apply Z.mod_small. lia.
Qed.

(** A push below capacity appends to the unread events, wherever the
    counters stand. *)
Lemma contents_push q ty v :
  (MAX_EVENTS | UINT_MODULUS) -> MAX_EVENTS < UINT_MODULUS ->
  wf q -> pending q < MAX_EVENTS ->
  contents (push_event q ty v) = contents q ++ [mkEvent ty v].
Proof.
  intros Hdiv Hlt Hq Hp. pose proof (pending_range q) as Hrange.
  unfold EventQueue.contents.
  rewrite pending_after_push by lia.
  replace (Z.to_nat (pending q + 1)) with (S (Z.to_nat (pending q))) by lia.
  rewrite seq_S, map_app. cbn [Nat.add map].
  assert (Hnew : (pre_increment (__write_index q)) mod MAX_EVENTS
                 = (__read_index q + pending q + 1) mod MAX_EVENTS).
  { unfold pre_increment. rewrite <- (write_from_pending q Hq).
    rewrite Z.add_mod_idemp_l by uint_lia.
    by apply Z.mod_mod_divide. }
  destruct Hq as (_ & _ & Hlen).
  f_equal.
  - apply map_ext_in. intros i Hi. apply in_seq in Hi.
    cbn [EventQueue.push_event __read_index __events_buffer].
    apply list_lookup_total_insert_ne.
    rewrite slot_eq_iff, Hnew, Z.mod_mod_divide by done.
    replace (__read_index q + pending q + 1)
      with (__read_index q + Z.of_nat (S i) + (pending q - Z.of_nat i))
      by lia.
    apply mod_shift_neq. lia.
  - f_equal. cbn [EventQueue.push_event __read_index __events_buffer].
    replace (slot ((__read_index q + Z.of_nat (S (Z.to_nat (pending q))))
                   mod UINT_MODULUS))
      with (slot (pre_increment (__write_index q))).
    + apply list_lookup_total_insert_eq. rewrite Hlen. apply slot_in_range.
    + rewrite slot_eq_iff, Hnew, Z.mod_mod_divide by done.
      f_equal. lia.
Qed.

(** A pop on a non-empty queue returns the first unread event and leaves
    the others. *)
Lemma contents_pop q :
  wf q -> __read_index q <> __write_index q ->
  contents q = fst (pop_event q) :: contents (snd (pop_event q)).
Proof.
  intros Hq Hne.
  assert (Hp : pending q <> 0).
  { intros E. by apply Hne, pending_zero_iff. }
  pose proof (pending_range q) as Hrange.
  rewrite pop_event_nonempty by done. cbn [fst snd].
  unfold EventQueue.contents at 2.
  rewrite pending_after_pop by done.
  cbn [__read_index __write_index __events_buffer].
  unfold EventQueue.contents.
  replace (Z.to_nat (pending q)) with (S (Z.to_nat (pending q - 1))) by lia.
  rewrite <- cons_seq, map_cons, <- seq_shift, map_map.
  f_equal.
  apply map_ext. intros i. unfold pre_increment.
  rewrite Z.add_mod_idemp_l by uint_lia. do 3 f_equal. lia.
Qed.

Lemma contents_empty q :
  wf q -> __read_index q = __write_index q -> contents q = [].
Proof.
  intros Hq He. unfold EventQueue.contents.
  apply pending_zero_iff in He; [| done]. by rewrite He.
Qed.

Lemma contents_nonempty q :
  wf q -> __read_index q <> __write_index q -> contents q <> [].
Proof.
  intros Hq Hne. rewrite contents_pop by done. done.
Qed.

(** The code refines the bounded first-in first-out list from every
    well-formed state. *)
Lemma run_refines_fifo ops :
  (MAX_EVENTS | UINT_MODULUS) -> MAX_EVENTS < UINT_MODULUS ->
  forall q outs l',
    wf q ->
    fifo_run (contents q) ops = Some (outs, l') ->
    exists q', run q ops = (outs, q') /\ contents q' = l' /\ wf q'.
Proof.
  intros Hdiv Hlt.
  induction ops as [|[ty v|] ops IH]; intros q outs l' Hq Hspec.
  - simpl in *. injection Hspec as <- <-. eauto.
  - cbn [EventQueue.fifo_run] in Hspec. cbn [EventQueue.run].
    destruct (Z.ltb_spec (Z.of_nat (length (contents q))) MAX_EVENTS)
      as [Hroom|]; [| done].
    rewrite length_contents in Hroom. pose proof (pending_range q).
    rewrite <- contents_push in Hspec by (done || lia).
    apply IH in Hspec; [done |]. by apply wf_push.
  - cbn [EventQueue.fifo_run] in Hspec. cbn [EventQueue.run].
    destruct (Z.eq_dec (__read_index q) (__write_index q)) as [He|Hne].
    + rewrite contents_empty in Hspec by done.
      rewrite (pop_event_empty q He).
      destruct (fifo_run [] ops) as [[out l1]|] eqn:Hrest; [| done].
      injection Hspec as <- <-.
      rewrite <- (contents_empty q Hq He) in Hrest.
      apply IH in Hrest as (q' & Hrun & Hc & Hwf); [| done].
      rewrite Hrun. eauto.
    + rewrite contents_pop in Hspec by done.
      pose proof (wf_pop q Hq) as Hq1.
      destruct (pop_event q) as [ev q1]. cbn [fst snd] in *.
      destruct (fifo_run (contents q1) ops) as [[out l1]|] eqn:Hrest;
        [| done].
      injection Hspec as <- <-.
      apply IH in Hrest as (q' & Hrun & Hc & Hwf); [| done].
      rewrite Hrun. eauto.
Qed.

(** C3.  Each push replaces the write cursor, and each pop of an unread
    event the read cursor, by its successor as an [unsigned int]; nothing
    else changes a cursor, and the value reduced modulo [MAX_EVENTS] is only
    the array subscript.  With a capacity that divides [2^32], any sequence
    of calls that never pushes onto a full queue behaves as the first-in
    first-out list does, from every state of the counters: also across the
    wrap of a counter at [2^32]. *)
Theorem cursors_increase_fifo_across_wraps :
  (MAX_EVENTS | UINT_MODULUS) -> MAX_EVENTS < UINT_MODULUS ->
  (forall q ty v,
     __write_index (push_event q ty v)
       = (__write_index q + 1) mod UINT_MODULUS /\
     __read_index (push_event q ty v) = __read_index q /\
     __events_buffer (push_event q ty v)
       = <[Z.to_nat (__write_index (push_event q ty v) mod MAX_EVENTS)
             := mkEvent ty v]> (__events_buffer q)) /\
  (forall q,
     __read_index q <> __write_index q ->
     __read_index (snd (pop_event q))
       = (__read_index q + 1) mod UINT_MODULUS /\
     __write_index (snd (pop_event q)) = __write_index q /\
     fst (pop_event q)
       = __events_buffer q
           !!! Z.to_nat (__read_index (snd (pop_event q)) mod MAX_EVENTS)) /\
  (forall q ops outs l',
     wf q ->
     fifo_run (contents q) ops = Some (outs, l') ->
     exists q', run q ops = (outs, q') /\ contents q' = l' /\ wf q').
Proof.
  intros Hdiv Hlt. split; [| split].
  - intros q ty v. repeat split.
  - intros q Hne. rewrite pop_event_nonempty by done. repeat split.
  - intros q ops. by apply run_refines_fifo.
Qed.

End WithCapacity.

(** *** Concrete runs *)

(** A typed event carrying [n]. *)
Local Abbreviation ev n := (mkEvent EVENT_SERVER_SHUTDOWN n).

Lemma capacity_1024_pos : 0 < 1024.
Proof. reflexivity. Qed.

Lemma capacity_4_pos : 0 < 4.
Proof. reflexivity. Qed.

Lemma capacity_1024_divides : (1024 | UINT_MODULUS).
Proof. exists 4194304. rewrite UINT_MODULUS_value. reflexivity. Qed.

Lemma pop_event_empty_unchanged_witness :
  pop_event 1024 (create 1024) = (mkEvent EVENT_NONE 0, create 1024) /\
  type (fst (pop_event 1024 (create 1024))) = EVENT_NONE /\
  value (fst (pop_event 1024 (create 1024))) = 0 /\
  __read_index (snd (pop_event 1024 (create 1024)))
    = __read_index (create 1024) /\
  __write_index (snd (pop_event 1024 (create 1024)))
    = __write_index (create 1024) /\
  __events_buffer (snd (pop_event 1024 (create 1024)))
    = __events_buffer (create 1024).
Proof.
  apply (pop_event_empty_unchanged 1024 (create 1024)). reflexivity.
Defined.

Lemma push_three_pop_four_witness :
  fst (pop_n 1024 4
         (push_event 1024
            (push_event 1024
               (push_event 1024 (create 1024) EVENT_SERVER_SHUTDOWN 7)
               EVENT_ROLE_CHANGED 1)
            EVENT_RELOCATION_OCCURRED 48000))
  = [mkEvent EVENT_SERVER_SHUTDOWN 7; mkEvent EVENT_ROLE_CHANGED 1;
     mkEvent EVENT_RELOCATION_OCCURRED 48000; mkEvent EVENT_NONE 0].
Proof.
  apply (push_three_pop_four 1024 capacity_1024_pos (create 1024)).
  - apply wf_create.
  - reflexivity.
  - rewrite UINT_MODULUS_value. reflexivity.
  - discriminate.
Defined.

(** C1 fails as stated: with four slots and five pushes, the consumer loop
    returns five events, the first of them the event pushed last, instead
    of the four most recent ones. *)
Lemma overflow_drain_counterexample :
  fst <$> drain 4 6 (push_all 4 (create 4) [ev 1; ev 2; ev 3; ev 4; ev 5])
    = Some [ev 5; ev 2; ev 3; ev 4; ev 5]
  /\ fst <$> drain 4 6 (push_all 4 (create 4) [ev 1; ev 2; ev 3; ev 4; ev 5])
    <> Some (drop 1 [ev 1; ev 2; ev 3; ev 4; ev 5]).
Proof. split; [vm_compute; reflexivity | vm_compute; discriminate]. Qed.

(** The same on a queue of 1024 slots: after 1025 pushes the loop returns
    1025 events. *)
Example drain_after_1025_pushes :
  length <$> (fst <$> drain 1024 1026
                (push_all 1024 (create 1024)
                   (map (fun n => ev n) (seqZ 1 1025))))
  = Some 1025%nat.
Proof. vm_compute. reflexivity. Qed.

Lemma overflow_drain_witness :
  fst <$> drain 4 6 (push_all 4 (create 4) [ev 1; ev 2; ev 3; ev 4; ev 5])
    = Some (stale_reads 4 [ev 1; ev 2; ev 3; ev 4; ev 5] 1
            ++ drop 1 [ev 1; ev 2; ev 3; ev 4; ev 5]).
Proof.
  apply (overflow_drain 4 capacity_4_pos (create 4)
           [ev 1; ev 2; ev 3; ev 4; ev 5] 1 6).
  - apply wf_create.
  - reflexivity.
  - repeat constructor; discriminate.
  - lia.
  - reflexivity.
  - rewrite UINT_MODULUS_value. reflexivity.
  - simpl. lia.
Defined.

(** A queue whose cursors stand two steps before the wrap at [2^32]. *)
Local Abbreviation before_wrap :=
  (mkQueue 4294967294 4294967294 (replicate 1024 (mkEvent EVENT_NONE 0))).

Lemma wf_before_wrap : wf 1024 before_wrap.
Proof.
  unfold wf; cbn [__read_index __write_index __events_buffer].
  rewrite UINT_MODULUS_value, length_replicate.
  repeat split; lia.
Qed.

Lemma cursors_increase_fifo_across_wraps_witness :
  exists q',
    run 1024 before_wrap
      [Push EVENT_ROLE_CHANGED 1; Push EVENT_ROLE_CHANGED 2; Pop;
       Push EVENT_ROLE_CHANGED 3; Pop; Pop; Pop]
    = ([mkEvent EVENT_ROLE_CHANGED 1; mkEvent EVENT_ROLE_CHANGED 2;
        mkEvent EVENT_ROLE_CHANGED 3; mkEvent EVENT_NONE 0], q')
    /\ contents 1024 q' = [] /\ wf 1024 q'.
Proof.
  apply (cursors_increase_fifo_across_wraps 1024 capacity_1024_pos
           capacity_1024_divides).
  - rewrite UINT_MODULUS_value. reflexivity.
  - exact wf_before_wrap.
  - vm_compute. reflexivity.
Defined.

(** The divisibility assumption cannot be dropped: with three slots, the
    counters [2^32 - 1] and [0] address the same slot, and two events
    pushed across the wrap come back as the second one twice. *)
Example wrap_glitch_capacity_3 :
  fst (run 3 (mkQueue 4294967294 4294967294
                (replicate 3 (mkEvent EVENT_NONE 0)))
         [Push EVENT_ROLE_CHANGED 1; Push EVENT_ROLE_CHANGED 2; Pop; Pop])
  = [mkEvent EVENT_ROLE_CHANGED 2; mkEvent EVENT_ROLE_CHANGED 2].
Proof. vm_compute. reflexivity. Qed.

End EventQueueFacts.

(** ** JackAudioDriver *)

Module JackAudioDriverFacts.
Import JackAudioDriver.

(** *** The frame offset *)

Section TransportSync.










End TransportSync.


(** A jump of the server while rolling is classified: the internal position
    is snapped to the reported frame and the offset is 0 from then on. *)
Example jump_is_classified :
  let t := mkTransport 96000 true 500 JackTransportRolling 95476 95476 0 in
  let t' := run_cycle t (mkCycle JackTransportRolling 10000 1024 None) in
  relocations t' = 1%nat /\ m_frameOffset t' = 0 /\ m_nFrames t' = 11024.
Proof. by vm_compute. Qed.

(** *** The demotion countdown and the tempo wait *)

Section TimebaseMaster.

Variable TRACKING_RESET : Z.
Hypothesis TRACKING_RESET_pos : 0 < TRACKING_RESET.

Local Abbreviation JackTimebaseCallback :=
  (JackTimebaseCallback TRACKING_RESET).
Local Abbreviation cycles_with_callback :=
  (cycles_with_callback TRACKING_RESET).

Lemma callback_resets {Tempo} pos_frame (bpm : Tempo) d :
  m_nTimebaseTracking (fst (JackTimebaseCallback pos_frame bpm d))
    = TRACKING_RESET /\
  m_timebaseState (fst (JackTimebaseCallback pos_frame bpm d))
    = Timebase.Master.
Proof.
  unfold JackAudioDriver.JackTimebaseCallback.
  by destruct (0 <? nWaits d).
Qed.

Lemma demoted_state bbt_valid d :
  m_timebaseState (demoted bbt_valid d) = role_without_callback bbt_valid /\
  m_nTimebaseTracking (demoted bbt_valid d) <= 0.
Proof. destruct bbt_valid; simpl; split; (done || lia). Qed.

Lemma role_without_callback_not_master bbt_valid :
  role_without_callback bbt_valid <> Timebase.Master.
Proof. by destruct bbt_valid. Qed.

Lemma expected_cycle_decrements d bbt_valid :
  m_timebaseState d = Timebase.Master ->
  1 < m_nTimebaseTracking d ->
  updateTransportInfo_timebase JackTransportRolling bbt_valid d
  = mkTimebaseSync (m_nTimebaseTracking d - 1) Timebase.Master
      (nWaits d) (relocation_target d).
Proof.
  intros Hm Hn. unfold updateTransportInfo_timebase. rewrite Hm.
  destruct (Z.leb_spec (m_nTimebaseTracking d - 1) 0); [lia | done].
Qed.

Lemma countdown_zero_demotes d bbt_valid :
  m_timebaseState d = Timebase.Master ->
  m_nTimebaseTracking d - 1 <= 0 ->
  updateTransportInfo_timebase JackTransportRolling bbt_valid d
  = demoted bbt_valid d.
Proof.
  intros Hm Hn. unfold updateTransportInfo_timebase. rewrite Hm.
  destruct (Z.leb_spec (m_nTimebaseTracking d - 1) 0); [done | lia].
Qed.

Lemma not_master_stays_demoted d bbt_valid st :
  m_timebaseState d <> Timebase.Master ->
  updateTransportInfo_timebase st bbt_valid d = demoted bbt_valid d.
Proof.
  intros Hm. unfold updateTransportInfo_timebase.
  by destruct (m_timebaseState d).
Qed.

(** Cycles without the callback, counted from a countdown value [c]. *)
Lemma countdown_runs_out (n : nat) : forall d bbt_valid,
  m_timebaseState d = Timebase.Master ->
  0 < m_nTimebaseTracking d ->
  (Z.of_nat n < m_nTimebaseTracking d ->
     m_timebaseState (cycles_without_callback n bbt_valid d) = Timebase.Master
     /\ m_nTimebaseTracking (cycles_without_callback n bbt_valid d)
        = m_nTimebaseTracking d - Z.of_nat n) /\
  (m_nTimebaseTracking d <= Z.of_nat n ->
     m_timebaseState (cycles_without_callback n bbt_valid d)
     = role_without_callback bbt_valid).
Proof.
  induction n as [|n IH]; intros d bbt_valid Hm Hpos.
  - simpl. split; [intros _; split; [done | lia] | lia].
  - cbn [cycles_without_callback].
    destruct (Z_lt_le_dec 1 (m_nTimebaseTracking d)) as [Hgt|Hle].
    + rewrite expected_cycle_decrements by done.
      set (d1 := mkTimebaseSync _ _ _ _).
      destruct (IH d1 bbt_valid) as [Hlt Hge]; [done | simpl; lia |].
      simpl in Hlt, Hge. split; intros Hn.
      * destruct Hlt as [-> ->]; [lia |]. split; [done | lia].
      * apply Hge. lia.
    + rewrite countdown_zero_demotes by (done || lia).
      split; [lia |]. intros _.
      assert (Hd : m_timebaseState (demoted bbt_valid d) <> Timebase.Master).
      { destruct (demoted_state bbt_valid d) as [-> _].
        apply role_without_callback_not_master. }
      assert (Hs : m_timebaseState (demoted bbt_valid d)
                   = role_without_callback bbt_valid)
        by apply demoted_state.
      clear -Hd Hs. revert Hd Hs. generalize (demoted bbt_valid d).
      induction n as [|n IHn]; intros d0 Hd Hs; [done |].
      cbn [cycles_without_callback].
      rewrite not_master_stays_demoted by done.
      apply IHn.
      * destruct (demoted_state bbt_valid d0) as [-> _].
        apply role_without_callback_not_master.
      * apply demoted_state.
Qed.

(** C5.  The master callback sets the countdown to its fixed positive
    reset value and the role to Master.  While the role is Master, each
    cycle in which the callback is expected (the server is rolling)
    decrements the countdown, and a cycle in which it is not expected
    leaves it alone.  When the decrement reaches zero the role becomes
    Slave or None.  Hence, after a callback, the role is still Master
    after fewer than [TRACKING_RESET] cycles without a callback, and is
    Slave or None after [TRACKING_RESET] or more. *)
Theorem timebase_demotion_countdown :
  (forall Tempo pos_frame (bpm : Tempo) d,
     m_nTimebaseTracking (fst (JackTimebaseCallback pos_frame bpm d))
       = TRACKING_RESET /\
     m_timebaseState (fst (JackTimebaseCallback pos_frame bpm d))
       = Timebase.Master) /\
  (forall d bbt_valid,
     m_timebaseState d = Timebase.Master ->
     1 < m_nTimebaseTracking d ->
     m_nTimebaseTracking
       (updateTransportInfo_timebase JackTransportRolling bbt_valid d)
       = m_nTimebaseTracking d - 1 /\
     m_timebaseState
       (updateTransportInfo_timebase JackTransportRolling bbt_valid d)
       = Timebase.Master) /\
  (forall d bbt_valid st,
     m_timebaseState d = Timebase.Master ->
     st <> JackTransportRolling ->
     updateTransportInfo_timebase st bbt_valid d = d) /\
  (forall d bbt_valid,
     m_timebaseState d = Timebase.Master ->
     m_nTimebaseTracking d - 1 <= 0 ->
     m_timebaseState
       (updateTransportInfo_timebase JackTransportRolling bbt_valid d)
       = role_without_callback bbt_valid /\
     m_timebaseState
       (updateTransportInfo_timebase JackTransportRolling bbt_valid d)
       <> Timebase.Master) /\
  (forall Tempo pos_frame (bpm : Tempo) d bbt_valid (n : nat),
     let d0 := fst (JackTimebaseCallback pos_frame bpm d) in
     (Z.of_nat n < TRACKING_RESET ->
        m_timebaseState (cycles_without_callback n bbt_valid d0)
        = Timebase.Master) /\
     (TRACKING_RESET <= Z.of_nat n ->
        m_timebaseState (cycles_without_callback n bbt_valid d0)
        = role_without_callback bbt_valid /\
        m_timebaseState (cycles_without_callback n bbt_valid d0)
        <> Timebase.Master)).
Proof.
  split; [| split; [| split; [| split]]].
  - intros. apply callback_resets.
  - intros d bbt_valid Hm Hn. by rewrite expected_cycle_decrements.
  - intros d bbt_valid st Hm Hst. unfold updateTransportInfo_timebase.
    rewrite Hm. by destruct st.
  - intros d bbt_valid Hm Hn. rewrite countdown_zero_demotes by done.
    destruct (demoted_state bbt_valid d) as [-> _].
    split; [done | apply role_without_callback_not_master].
  - intros Tempo pos_frame bpm d bbt_valid n d0.
    destruct (callback_resets pos_frame bpm d) as [Hn Hm].
    fold d0 in Hn, Hm.
    destruct (countdown_runs_out n d0 bbt_valid Hm) as [Hlt Hge]; [lia |].
    rewrite Hn in Hlt, Hge. split; intros H.
    + by apply Hlt.
    + rewrite Hge by done.
      split; [done | apply role_without_callback_not_master].
Qed.

Lemma update_keeps_waits st bbt_valid d :
  exists n s,
    updateTransportInfo_timebase st bbt_valid d
    = mkTimebaseSync n s (nWaits d) (relocation_target d).
Proof.
  unfold updateTransportInfo_timebase, demoted.
  destruct d as [n s w r]; simpl.
  destruct s, st, bbt_valid; simpl;
    try destruct (n - 1 <=? 0); simpl; eauto.
Qed.

Lemma broadcasts_without_wait {Tempo} (cs : list (Z * Tempo)) : forall d,
  nWaits d <= 0 ->
  snd (cycles_with_callback cs d)
  = map (fun c => PositionAndTempo (fst c) (snd c)) cs.
Proof.
  induction cs as [|[f b] cs IH]; intros d Hw; [done |].
  cbn [JackAudioDriver.cycles_with_callback].
  destruct (update_keeps_waits JackTransportRolling false d) as (n & s & ->).
  unfold JackAudioDriver.JackTimebaseCallback; simpl.
  destruct (Z.ltb_spec 0 (nWaits d)); [lia |].
  specialize (IH (mkTimebaseSync TRACKING_RESET Timebase.Master (nWaits d) None)
                 Hw).
  destruct (cycles_with_callback cs _) as [d3 bs]. simpl in *. by f_equal.
Qed.

(** C6.  After a relocation that this process issues as Master, the
    callback of the next cycle writes the position computed from the
    relocation target and no tempo, the callback of the cycle after it
    writes no tempo either, and from the third cycle on the tempo is
    broadcast again. *)
Theorem tempo_suppressed_two_cycles {Tempo : Type}
    (d : TimebaseSync) (target : Z) (c1 c2 : Z * Tempo)
    (cs : list (Z * Tempo)) :
  m_timebaseState d = Timebase.Master ->
  snd (cycles_with_callback (c1 :: c2 :: cs) (locateTransport target d))
  = PositionOnly target :: PositionOnly (fst c2)
      :: map (fun c => PositionAndTempo (fst c) (snd c)) cs.
Proof.
  intros Hm. unfold locateTransport. rewrite Hm.
  destruct c1 as [f1 b1], c2 as [f2 b2].
  cbn [JackAudioDriver.cycles_with_callback].
  destruct (update_keeps_waits JackTransportRolling false
              (mkTimebaseSync (m_nTimebaseTracking d) Timebase.Master 2
                 (Some target))) as (n1 & s1 & ->).
  unfold JackAudioDriver.JackTimebaseCallback at 1; simpl.
  change (2 - 1) with 1.
  destruct (update_keeps_waits JackTransportRolling false
              (mkTimebaseSync TRACKING_RESET Timebase.Master 1 None))
    as (n2 & s2 & ->).
  unfold JackAudioDriver.JackTimebaseCallback at 1; simpl.
  change (1 - 1) with 0.
  pose proof (broadcasts_without_wait cs
                (mkTimebaseSync TRACKING_RESET Timebase.Master 0 None)) as Hrest.
  destruct (cycles_with_callback cs _) as [d3 bs]. simpl in *.
  by rewrite Hrest.
Qed.

End TimebaseMaster.

Lemma tempo_suppressed_two_cycles_witness :
  snd (cycles_with_callback 2
         [(48000, 120%nat); (49024, 120%nat); (50048, 140%nat);
          (51072, 140%nat)]
         (locateTransport 48000
            (mkTimebaseSync 2 Timebase.Master 0 None)))
  = [PositionOnly 48000; PositionOnly 49024;
     PositionAndTempo 50048 140%nat; PositionAndTempo 51072 140%nat].
Proof.
  apply (tempo_suppressed_two_cycles 2
           (mkTimebaseSync 2 Timebase.Master 0 None) 48000
           (48000, 120%nat) (49024, 120%nat)
           [(50048, 140%nat); (51072, 140%nat)]).
  reflexivity.
Defined.

(** *** Per-track output ports *)

Section PortManager.

Variable provisional_name : nat -> channel -> string.
Variable song : Song.t.

Local Abbreviation setTrackOutput := (setTrackOutput provisional_name).
Local Abbreviation assign_tracks := (assign_tracks provisional_name song).
Local Abbreviation makeTrackOutputs := (makeTrackOutputs provisional_name).
Local Abbreviation write_names := (write_names song).
Local Abbreviation name_of := (name_of song).

Lemma port_name_set_trackMap m p n ch :
  port_name (set_trackMap m p) n ch = port_name p n ch.
Proof. by destruct ch. Qed.

Lemma named_entry_insert (l : list (option string)) n x :
  mjoin (l !! n) = Some x -> <[n := Some x]> l = l.
Proof.
  intros H. apply list_insert_id.
  destruct (l !! n) as [[y|]|]; simpl in H; congruence.
Qed.

(** The state [setTrackOutput] leaves, whether or not it had to rename. *)
Lemma setTrackOutput_state n instr compo p :
  (n <= m_nTrackPortCount p)%nat ->
  fst (setTrackOutput n instr compo song p)
  = mkPorts (m_trackMap p) (Nat.max (m_nTrackPortCount p) (S n))
      (<[n := Some (name_of n (instr, compo) L)]> (m_pTrackOutputPortsL p))
      (<[n := Some (name_of n (instr, compo) R)]> (m_pTrackOutputPortsR p)).
Proof.
  intros Hn. unfold JackAudioDriver.setTrackOutput.
  destruct (Nat.leb_spec (m_nTrackPortCount p) n) as [Hle|Hgt].
  - assert (m_nTrackPortCount p = n) as -> by lia.
    replace (n + 1 - n)%nat with 1%nat by lia.
    unfold register_ports, set_pair, set_port, set_count; simpl.
    case_bool_decide as Hd; cbn [fst].
    + destruct Hd as [HL HR]. unfold port_name in HL, HR; simpl in HL, HR.
      apply named_entry_insert in HL, HR.
      rewrite list_insert_insert_eq in HL, HR.
      unfold JackAudioDriver.name_of; simpl.
      rewrite HL, HR. f_equal; lia.
    + rewrite !list_insert_insert_eq. repeat f_equal; lia.
  - case_bool_decide as Hd; cbn [fst].
    + destruct Hd as [HL HR]. unfold port_name in HL, HR.
      apply named_entry_insert in HL, HR.
      unfold JackAudioDriver.name_of; simpl. rewrite HL, HR.
      destruct p; simpl in *. repeat f_equal; lia.
    + unfold set_pair, set_port; simpl. repeat f_equal; lia.
Qed.

(** No call is made for a track whose ports exist under their names. *)
Lemma setTrackOutput_quiet n instr compo p :
  (n < m_nTrackPortCount p)%nat ->
  (forall ch, port_name p n ch = Some (name_of n (instr, compo) ch)) ->
  setTrackOutput n instr compo song p = (p, []).
Proof.
  intros Hn Hnames. unfold JackAudioDriver.setTrackOutput.
  destruct (Nat.leb_spec (m_nTrackPortCount p) n) as [Hle|Hgt]; [lia |].
  rewrite bool_decide_eq_true_2; [done |].
  split; [apply (Hnames L) | apply (Hnames R)].
Qed.

Lemma assign_tracks_state ts : forall n p,
  (n <= m_nTrackPortCount p)%nat ->
  fst (fst (assign_tracks ts n p))
  = mkPorts (map_tracks ts n (m_trackMap p))
      (Nat.max (m_nTrackPortCount p) (n + length ts))
      (write_names L ts n (m_pTrackOutputPortsL p))
      (write_names R ts n (m_pTrackOutputPortsR p))
  /\ snd (assign_tracks ts n p) = (n + length ts)%nat.
Proof.
  induction ts as [|[instr compo] ts IH]; intros n p Hn.
  - simpl. destruct p; simpl in *. split; [repeat f_equal |]; lia.
  - cbn [JackAudioDriver.assign_tracks].
    pose proof (setTrackOutput_state n instr compo p Hn) as Hst.
    destruct (setTrackOutput n instr compo song p) as [p1 log1].
    cbn [fst] in Hst. subst p1.
    set (p2 := set_trackMap _ _).
    destruct (IH (S n) p2) as [Hs Hc]; [simpl; lia |].
    destruct (assign_tracks ts (S n) p2) as [[p3 log3] n3].
    cbn [fst snd] in *. subst p3 n3. unfold p2.
    cbn [m_trackMap m_nTrackPortCount m_pTrackOutputPortsL
         m_pTrackOutputPortsR set_trackMap JackAudioDriver.write_names
         JackAudioDriver.map_tracks length].
    replace (Nat.max (Nat.max (m_nTrackPortCount p) (S n)) (S n + length ts))
      with (Nat.max (m_nTrackPortCount p) (n + S (length ts))) by lia.
    split; [done | lia].
Qed.

(** No call is made for tracks whose ports all exist under their names;
    only [m_trackMap] is written. *)
Lemma assign_tracks_quiet ts : forall n p,
  (n + length ts <= m_nTrackPortCount p)%nat ->
  (forall j t ch, ts !! j = Some t ->
     port_name p (n + j) ch = Some (name_of (n + j) t ch)) ->
  assign_tracks ts n p
  = (set_trackMap (map_tracks ts n (m_trackMap p)) p, [],
     (n + length ts)%nat).
Proof.
  induction ts as [|[instr compo] ts IH]; intros n p Hc Hnames.
  - simpl. destruct p; simpl. repeat f_equal; lia.
  - cbn [JackAudioDriver.assign_tracks]. simpl in Hc.
    rewrite setTrackOutput_quiet.
    + rewrite IH.
      * cbn [set_trackMap m_trackMap m_nTrackPortCount m_pTrackOutputPortsL
             m_pTrackOutputPortsR JackAudioDriver.map_tracks app length].
        unfold key_of, set_trackMap; cbn [fst snd m_nTrackPortCount
          m_pTrackOutputPortsL m_pTrackOutputPortsR].
        f_equal. lia.
      * simpl. lia.
      * intros j t ch Hj. rewrite port_name_set_trackMap.
        replace (S n + j)%nat with (n + S j)%nat by lia. by apply Hnames.
    + lia.
    + intros ch. specialize (Hnames 0%nat (instr, compo) ch eq_refl).
      by rewrite Nat.add_0_r in Hnames.
Qed.

Lemma length_write_names ch ts : forall n l,
  length (write_names ch ts n l) = length l.
Proof.
  induction ts as [|t ts IH]; intros n l; [done |].
  simpl. by rewrite IH, length_insert.
Qed.

Lemma write_names_lookup_below ch ts : forall n l j,
  (j < n)%nat -> write_names ch ts n l !! j = l !! j.
Proof.
  induction ts as [|t ts IH]; intros n l j Hj; [done |].
  simpl. rewrite IH by lia. apply list_lookup_insert_ne. lia.
Qed.

Lemma write_names_lookup ch ts : forall n l j t,
  ts !! j = Some t -> (n + j < length l)%nat ->
  write_names ch ts n l !! (n + j)%nat = Some (Some (name_of (n + j) t ch)).
Proof.
  induction ts as [|t0 ts IH]; intros n l j t Hj Hlen; [done |].
  destruct j as [|j]; simpl in Hj |- *.
  - injection Hj as ->. rewrite Nat.add_0_r.
    rewrite write_names_lookup_below by lia.
    apply list_lookup_insert_eq. lia.
  - replace (n + S j)%nat with (S n + j)%nat by lia.
    apply IH; [done |]. rewrite length_insert. lia.
Qed.

Lemma write_names_id ch ts : forall n l,
  (forall j t, ts !! j = Some t ->
     l !! (n + j)%nat = Some (Some (name_of (n + j) t ch))) ->
  write_names ch ts n l = l.
Proof.
  induction ts as [|t0 ts IH]; intros n l Hl; [done |].
  simpl. rewrite list_insert_id.
  - apply IH. intros j t Hj.
    replace (S n + j)%nat with (n + S j)%nat by lia. by apply Hl.
  - specialize (Hl 0%nat t0 eq_refl). by rewrite Nat.add_0_r in Hl.
Qed.

Lemma clear_entries_lookup_below k : forall a (l : list (option string)) j,
  (j < a)%nat -> clear_entries (seq a k) l !! j = l !! j.
Proof.
  induction k as [|k IH]; intros a l j Hj; [done |].
  unfold clear_entries in *. simpl.
  rewrite IH by lia. apply list_lookup_insert_ne. lia.
Qed.

Lemma release_ports_spec ns p :
  release_ports ns p
  = (mkPorts (m_trackMap p) (m_nTrackPortCount p)
       (clear_entries ns (m_pTrackOutputPortsL p))
       (clear_entries ns (m_pTrackOutputPortsR p)),
     flat_map (fun n => [jack_port_unregister n L; jack_port_unregister n R])
              ns).
Proof.
  unfold release_ports, clear_entries. f_equal. revert p.
  induction ns as [|n ns IH]; intros p; [by destruct p |].
  simpl. by rewrite IH.
Qed.

(** What [makeTrackOutputs] leaves, with the loop unfolded. *)
Lemma makeTrackOutputs_state p :
  let ts := tracks_of song in
  let c := Nat.max (m_nTrackPortCount p) (length ts) in
  let released := seq (length ts) (c - length ts) in
  fst (makeTrackOutputs true song p)
  = mkPorts (map_tracks ts 0 ∅) (length ts)
      (clear_entries released (write_names L ts 0 (m_pTrackOutputPortsL p)))
      (clear_entries released (write_names R ts 0 (m_pTrackOutputPortsR p))).
Proof.
  unfold JackAudioDriver.makeTrackOutputs. cbn [negb].
  destruct (assign_tracks_state (tracks_of song) 0 (set_trackMap ∅ p))
    as [Hs Hc]; [simpl; lia |].
  destruct (assign_tracks (tracks_of song) 0 (set_trackMap ∅ p))
    as [[p1 log1] n1].
  cbn [fst snd] in Hs, Hc. subst p1 n1.
  rewrite release_ports_spec. reflexivity.
Qed.

Lemma map_tracks_lookup_notin ts : forall n m k,
  k ∉ map key_of ts -> map_tracks ts n m !! k = m !! k.
Proof.
  induction ts as [|t ts IH]; intros n m k Hk; [done |].
  simpl in *. apply not_elem_of_cons in Hk as [Hne Hk].
  rewrite IH by done. by rewrite lookup_insert_ne.
Qed.

Lemma map_tracks_lookup ts : forall n m j t,
  NoDup (map key_of ts) -> ts !! j = Some t ->
  map_tracks ts n m !! key_of t = Some (n + j)%nat.
Proof.
  induction ts as [|t0 ts IH]; intros n m j t Hnd Hj; [done |].
  simpl in Hnd. apply NoDup_cons in Hnd as [Hfresh Hnd].
  destruct j as [|j]; simpl in Hj |- *.
  - injection Hj as ->. rewrite map_tracks_lookup_notin by done.
    rewrite lookup_insert_eq. f_equal. lia.
  - rewrite (IH (S n) _ j t) by done. f_equal. lia.
Qed.

(** The ports of the assigned tracks after [makeTrackOutputs]. *)
Lemma makeTrackOutputs_port_name MAX_INSTRUMENTS p j t ch :
  wf_ports MAX_INSTRUMENTS p ->
  (length (tracks_of song) <= MAX_INSTRUMENTS)%nat ->
  tracks_of song !! j = Some t ->
  port_name (fst (makeTrackOutputs true song p)) j ch
  = Some (name_of j t ch).
Proof.
  intros (HL & HR & _) Hcap Hj.
  pose proof (lookup_lt_Some _ _ _ Hj) as Hlt.
  rewrite makeTrackOutputs_state.
  unfold port_name; destruct ch; cbn [m_pTrackOutputPortsL m_pTrackOutputPortsR];
    rewrite clear_entries_lookup_below by done;
    rewrite (write_names_lookup _ _ 0 _ j t) by (done || simpl; lia);
    done.
Qed.

(** C8.  After [makeTrackOutputs], the ports of the track with number [n],
    assigned to a component of an instrument, are named "Track_", the
    component's name, "_", [n + 1], "_", the instrument's name, and "_L"
    or "_R"; [n] is what [m_trackMap] holds for the pair when no other
    pair has the same ids. *)
Theorem track_port_naming MAX_INSTRUMENTS p n instr compo :
  wf_ports MAX_INSTRUMENTS p ->
  (length (tracks_of song) <= MAX_INSTRUMENTS)%nat ->
  tracks_of song !! n = Some (instr, compo) ->
  let p1 := fst (makeTrackOutputs true song p) in
  port_name p1 n L
  = Some ("Track_" +:+ Song.component_name song compo +:+ "_"
          +:+ pretty (n + 1)%nat +:+ "_"
          +:+ Instrument.__name instr +:+ "_L") /\
  port_name p1 n R
  = Some ("Track_" +:+ Song.component_name song compo +:+ "_"
          +:+ pretty (n + 1)%nat +:+ "_"
          +:+ Instrument.__name instr +:+ "_R") /\
  (NoDup (map key_of (tracks_of song)) ->
   trackMap_get p1 (Instrument.__id instr) compo = n).
Proof.
  intros Hwf Hcap Hn p1. subst p1. split; [| split].
  - by rewrite (makeTrackOutputs_port_name MAX_INSTRUMENTS p n (instr, compo)).
  - by rewrite (makeTrackOutputs_port_name MAX_INSTRUMENTS p n (instr, compo)).
  - intros Hnd. rewrite makeTrackOutputs_state. unfold trackMap_get.
    cbn [m_trackMap].
    change (Instrument.__id instr, compo) with (key_of (instr, compo)).
    by rewrite (map_tracks_lookup _ 0 _ n (instr, compo)).
Qed.

(** C7.  A second [makeTrackOutputs] with the same song makes no call on
    the JACK client at all, so it creates no port and renames none, and it
    leaves the driver exactly as the first one left it: the same
    [m_trackMap], hence the same track number for every instrument and
    component, and the same ports under the same names. *)
Theorem makeTrackOutputs_twice MAX_INSTRUMENTS p :
  wf_ports MAX_INSTRUMENTS p ->
  (length (tracks_of song) <= MAX_INSTRUMENTS)%nat ->
  let r1 := makeTrackOutputs true song p in
  let r2 := makeTrackOutputs true song (fst r1) in
  fst r2 = fst r1 /\
  m_trackMap (fst r2) = m_trackMap (fst r1) /\
  (forall i j, trackMap_get (fst r2) i j = trackMap_get (fst r1) i j) /\
  snd r2 = [] /\
  length (List.filter is_register (snd r2)) = 0%nat /\
  length (List.filter is_rename (snd r2)) = 0%nat.
Proof.
  intros Hwf Hcap r1 r2.
  assert (Hnames : forall j t ch, tracks_of song !! j = Some t ->
            port_name (set_trackMap ∅ (fst r1)) (0 + j) ch
            = Some (name_of (0 + j) t ch)).
  { intros j t ch Hj. rewrite port_name_set_trackMap.
    by apply (makeTrackOutputs_port_name MAX_INSTRUMENTS). }
  assert (Hst : fst r1
                = mkPorts (map_tracks (tracks_of song) 0 ∅)
                    (length (tracks_of song))
                    (m_pTrackOutputPortsL (fst r1))
                    (m_pTrackOutputPortsR (fst r1))).
  { unfold r1. by rewrite makeTrackOutputs_state. }
  assert (Hcount : m_nTrackPortCount (fst r1) = length (tracks_of song))
    by (by rewrite Hst).
  assert (Hr2 : r2 = (fst r1, [])).
  { unfold r2, JackAudioDriver.makeTrackOutputs. cbn [negb].
    rewrite assign_tracks_quiet; [| simpl; lia | exact Hnames].
    cbn [set_trackMap m_nTrackPortCount Nat.add]. rewrite Hcount.
    rewrite Nat.sub_diag. cbn [seq release_ports foldl flat_map app].
    f_equal. etrans; [| symmetry; exact Hst]. reflexivity. }
  rewrite Hr2. by repeat split.
Qed.

End PortManager.

Lemma wf_no_ports n : wf_ports n (no_ports n).
Proof.
  unfold wf_ports, no_ports; simpl. rewrite length_replicate.
  repeat split; lia.
Qed.

Lemma track_port_naming_witness :
  let p1 := fst (makeTrackOutputs numbered_port_name true four_instruments
                   (no_ports 32)) in
  port_name p1 3 L = Some "Track_Main_4_Tom_L"%string /\
  port_name p1 3 R = Some "Track_Main_4_Tom_R"%string /\
  (NoDup (map key_of (tracks_of four_instruments)) ->
   trackMap_get p1 3 0 = 3%nat).
Proof.
  apply (track_port_naming numbered_port_name four_instruments 32
           (no_ports 32) 3 (Instrument.mk 3 "Tom" [0]) 0).
  - apply wf_no_ports.
  - simpl. lia.
  - reflexivity.
Defined.

(** The whole scenario: the first call registers and names four stereo
    pairs. *)
Example four_instruments_first_call :
  let r1 := makeTrackOutputs numbered_port_name true four_instruments
              (no_ports 32) in
  take 5 (m_pTrackOutputPortsL (fst r1))
  = [Some "Track_Main_1_Kick_L"; Some "Track_Main_2_Snare_L";
     Some "Track_Main_3_HiHat_L"; Some "Track_Main_4_Tom_L"; None]%string /\
  take 5 (m_pTrackOutputPortsR (fst r1))
  = [Some "Track_Main_1_Kick_R"; Some "Track_Main_2_Snare_R";
     Some "Track_Main_3_HiHat_R"; Some "Track_Main_4_Tom_R"; None]%string /\
  m_nTrackPortCount (fst r1) = 4%nat /\
  length (List.filter is_register (snd r1)) = 8%nat.
Proof. vm_compute. repeat split. Qed.

(** The second call on the unchanged four instruments: nothing is called
    and nothing changes. *)
Lemma makeTrackOutputs_twice_witness :
  let r1 := makeTrackOutputs numbered_port_name true four_instruments
              (no_ports 32) in
  let r2 := makeTrackOutputs numbered_port_name true four_instruments
              (fst r1) in
  fst r2 = fst r1 /\
  m_trackMap (fst r2) = m_trackMap (fst r1) /\
  (forall i j, trackMap_get (fst r2) i j = trackMap_get (fst r1) i j) /\
  snd r2 = [] /\
  length (List.filter is_register (snd r2)) = 0%nat /\
  length (List.filter is_rename (snd r2)) = 0%nat.
Proof.
  apply (makeTrackOutputs_twice numbered_port_name four_instruments 32
           (no_ports 32)).
  - apply wf_no_ports.
  - simpl. lia.
Defined.

(** After an instrument has been renamed, the next call renames the ports
    of its track only. *)
Example renamed_instrument_is_renamed :
  let r1 := makeTrackOutputs numbered_port_name true four_instruments
              (no_ports 32) in
  let song' :=
    Song.mk
      [Instrument.mk 0 "Kick" [0]; Instrument.mk 1 "Rim" [0];
       Instrument.mk 2 "HiHat" [0]; Instrument.mk 3 "Tom" [0]]
      [DrumkitComponent.mk 0 "Main"] in
  snd (makeTrackOutputs numbered_port_name true song' (fst r1))
  = [jack_port_rename 1 L "Track_Main_2_Rim_L";
     jack_port_rename 1 R "Track_Main_2_Rim_R"]%string.
Proof. vm_compute. reflexivity. Qed.

Lemma timebase_demotion_countdown_witness :
  let d0 := fst (JackTimebaseCallback 2 48000 120%nat
                   (mkTimebaseSync 1 Timebase.Master 0 None)) in
  m_timebaseState (cycles_without_callback 1 true d0) = Timebase.Master /\
  m_timebaseState (cycles_without_callback 2 true d0) = Timebase.Slave /\
  m_timebaseState (cycles_without_callback 2 false d0) = Timebase.None.
Proof.
  pose proof (timebase_demotion_countdown 2 ltac:(lia))
    as (_ & _ & _ & _ & H).
  pose proof (H nat 48000 120%nat (mkTimebaseSync 1 Timebase.Master 0 None))
    as H0.
  split; [| split].
  - apply (H0 true 1%nat). simpl. lia.
  - apply (H0 true 2%nat). simpl. lia.
  - apply (H0 false 2%nat). simpl. lia.
Defined.

End JackAudioDriverFacts.

(** ** EventQueue: further properties of the code *)

Module EventQueueMore.
Import EventQueue EventQueueFacts.

Section WithCapacity.

Variable MAX_EVENTS : Z.
Hypothesis MAX_EVENTS_pos : 0 < MAX_EVENTS.

Local Abbreviation slot := (slot MAX_EVENTS).
Local Abbreviation push_event := (push_event MAX_EVENTS).
Local Abbreviation pop_event := (pop_event MAX_EVENTS).
Local Abbreviation push_all := (push_all MAX_EVENTS).
Local Abbreviation pop_n := (pop_n MAX_EVENTS).
Local Abbreviation drain := (drain MAX_EVENTS).
Local Abbreviation wf := (wf MAX_EVENTS).
Local Abbreviation create := (create MAX_EVENTS).
Local Abbreviation contents := (contents MAX_EVENTS).
Local Abbreviation run := (run MAX_EVENTS).
Local Abbreviation create_instance := (create_instance MAX_EVENTS).
Local Abbreviation instance_run := (instance_run MAX_EVENTS).

Local Abbreviation wf_create := (wf_create MAX_EVENTS).
Local Abbreviation wf_push := (wf_push MAX_EVENTS).
Local Abbreviation wf_pop := (wf_pop MAX_EVENTS).
Local Abbreviation slot_in_range := (slot_in_range MAX_EVENTS MAX_EVENTS_pos).
Local Abbreviation slot_eq_iff := (slot_eq_iff MAX_EVENTS MAX_EVENTS_pos).
Local Abbreviation pop_event_nonempty := (pop_event_nonempty MAX_EVENTS).
Local Abbreviation pop_event_empty := (pop_event_empty MAX_EVENTS).
Local Abbreviation fifo_push_pop := (fifo_push_pop MAX_EVENTS MAX_EVENTS_pos).
Local Abbreviation wrap_free_small := (wrap_free_small MAX_EVENTS).
Local Abbreviation wrap_free_divide := (wrap_free_divide MAX_EVENTS).
Local Abbreviation pop_n_spec := (pop_n_spec MAX_EVENTS).
Local Abbreviation write_from_pending := (write_from_pending MAX_EVENTS).
Local Abbreviation pending_zero_iff := (pending_zero_iff MAX_EVENTS).
Local Abbreviation pending_after_push := (pending_after_push MAX_EVENTS).
Local Abbreviation pending_after_pop := (pending_after_pop MAX_EVENTS).
Local Abbreviation push_all_lookup :=
  (push_all_lookup MAX_EVENTS MAX_EVENTS_pos).
Local Abbreviation contents_pop := (contents_pop MAX_EVENTS).
Local Abbreviation contents_empty := (contents_empty MAX_EVENTS).
Local Abbreviation length_contents := (length_contents MAX_EVENTS).

Lemma wf_run ops : forall q, wf q -> wf (snd (run q ops)).
Proof.
  induction ops as [|[ty v|] ops IH]; intros q Hq; [done | |].
  - cbn [EventQueue.run]. by apply IH, wf_push.
  - cbn [EventQueue.run].
    pose proof (wf_pop q Hq) as Hq1.
    destruct (pop_event q) as [ev q1]. specialize (IH q1 Hq1).
    by destruct (run q1 ops).
Qed.

(** X1.  Whatever calls are made on a queue from its construction on, the
    cursors stay [unsigned int] values, the array keeps its [MAX_EVENTS]
    elements, and the subscripts the next push and the next pop compute
    are inside the array. *)
Theorem reachable_states_in_bounds ops :
  let q := snd (run create ops) in
  wf q /\
  (slot (pre_increment (__write_index q)) < length (__events_buffer q))%nat /\
  (slot (pre_increment (__read_index q)) < length (__events_buffer q))%nat.
Proof.
  intros q. assert (Hq : wf q) by apply wf_run, wf_create.
  split; [done |]. destruct Hq as (_ & _ & ->).
  split; by apply slot_in_range.
Qed.

(** X2.  On an empty queue, at any value of the cursors and for any
    capacity, a push followed by a pop returns the pushed event and leaves
    the queue empty. *)
Theorem push_pop_round_trip q ty v :
  wf q ->
  __read_index q = __write_index q ->
  fst (pop_event (push_event q ty v)) = mkEvent ty v /\
  __read_index (snd (pop_event (push_event q ty v)))
  = __write_index (snd (pop_event (push_event q ty v))).
Proof.
  intros Hq He. pose proof Hq as (Hr & Hw & Hlen).
  rewrite pop_event_nonempty.
  - cbn [fst snd EventQueue.push_event __read_index __write_index
         __events_buffer]. rewrite He. split; [| done].
    apply list_lookup_total_insert_eq. rewrite Hlen. by apply slot_in_range.
  - cbn [EventQueue.push_event __read_index __write_index]. rewrite He.
    intros E. symmetry in E. by apply pre_increment_neq in E.
Qed.

(** X3.  Any number of events up to [MAX_EVENTS], pushed onto an empty
    queue, are popped back in push order, after which the queue is empty
    and the next pop takes the sentinel path; provided the counters do not
    wrap on the way or the capacity divides [2^32]. *)
Theorem fifo_round_trip_to_capacity q evs :
  wf q ->
  __read_index q = __write_index q ->
  Z.of_nat (length evs) <= MAX_EVENTS ->
  Z.of_nat (length evs) < UINT_MODULUS ->
  __write_index q + Z.of_nat (length evs) < UINT_MODULUS
    \/ (MAX_EVENTS | UINT_MODULUS) ->
  exists q',
    pop_n (length evs) (push_all q evs) = (evs, q') /\
    __read_index q' = __write_index q' /\
    pop_event q' = (mkEvent EVENT_NONE 0, q').
Proof.
  intros Hq He Hcap Hn Hwrap.
  eexists. split; [| split].
  - apply fifo_push_pop; try done.
    destruct Hwrap as [Hsmall|Hdiv].
    + apply wrap_free_small; [apply Hq | done].
    + by apply wrap_free_divide.
  - done.
  - by apply pop_event_empty.
Qed.

Lemma pop_n_app a : forall b q,
  pop_n (a + b) q =
    let '(l1, q1) := pop_n a q in
    let '(l2, q2) := pop_n b q1 in
    (l1 ++ l2, q2).
Proof.
  induction a as [|a IH]; intros b q.
  - simpl. by destruct (pop_n b q).
  - cbn [Nat.add EventQueue.pop_n]. destruct (pop_event q) as [ev q1].
    rewrite IH. destruct (pop_n a q1) as [l1 q2].
    by destruct (pop_n b q2).
Qed.

Lemma pop_n_on_empty m : forall q,
  __read_index q = __write_index q ->
  pop_n m q = (replicate m (mkEvent EVENT_NONE 0), q).
Proof.
  induction m as [|m IH]; intros q He; [done |].
  cbn [EventQueue.pop_n]. rewrite (pop_event_empty q He).
  by rewrite IH.
Qed.

(** X4.  Popping more often than there are unread events is harmless: the
    unread events come first, every further pop returns the sentinel, and
    the queue ends empty with the write cursor and the array as they
    were. *)
Theorem pop_beyond_pending q (m : nat) :
  wf q ->
  pop_n (Z.to_nat (pending q) + m) q
  = (contents q ++ replicate m (mkEvent EVENT_NONE 0),
     mkQueue (__write_index q) (__write_index q) (__events_buffer q)).
Proof.
  intros Hq. pose proof (pending_range q) as Hp.
  rewrite pop_n_app, pop_n_spec by (done || lia).
  rewrite Z2Nat.id, write_from_pending by (done || lia).
  by rewrite pop_n_on_empty.
Qed.

(** X5.  On a queue with an unread event, and unless the push makes the
    write counter catch up with the read counter, a push and a pop can be
    done in either order: the resulting queue is the same, and so is the
    popped event when the two calls use different slots. *)
Theorem push_pop_commute q ty v :
  __read_index q <> __write_index q ->
  __read_index q <> pre_increment (__write_index q) ->
  snd (pop_event (push_event q ty v))
  = push_event (snd (pop_event q)) ty v /\
  (slot (pre_increment (__write_index q))
   <> slot (pre_increment (__read_index q)) ->
   fst (pop_event (push_event q ty v)) = fst (pop_event q)).
Proof.
  intros Hne Hfull.
  rewrite (pop_event_nonempty q Hne).
  rewrite pop_event_nonempty by done.
  split; [done |]. intros Hslot. cbn [fst EventQueue.push_event
    __read_index __events_buffer].
  by apply list_lookup_total_insert_ne.
Qed.

(** X6.  A push onto a full queue overwrites the oldest unread event: the
    next pop returns the event just pushed (capacity dividing [2^32] and
    at least two below it). *)
Theorem push_on_full_overwrites_oldest q ty v :
  wf q ->
  (MAX_EVENTS | UINT_MODULUS) ->
  MAX_EVENTS + 1 < UINT_MODULUS ->
  pending q = MAX_EVENTS ->
  fst (pop_event (push_event q ty v)) = mkEvent ty v.
Proof.
  intros Hq Hdiv Hlt Hfull. pose proof Hq as (Hr & Hw & Hlen).
  assert (Hpend : pending (push_event q ty v) = MAX_EVENTS + 1).
  { rewrite pending_after_push; lia. }
  rewrite pop_event_nonempty.
  2:{ intros E. apply pending_zero_iff in E; [lia |].
      by apply wf_push. }
  cbn [fst EventQueue.push_event __read_index __events_buffer].
  replace (slot (pre_increment (__read_index q)))
    with (slot (pre_increment (__write_index q))).
  - apply list_lookup_total_insert_eq. rewrite Hlen. by apply slot_in_range.
  - apply slot_eq_iff. unfold pre_increment.
    rewrite !Z.mod_mod_divide by done.
    rewrite <- (write_from_pending q Hq), Hfull.
    rewrite Zplus_mod, Z.mod_mod_divide, <- Zplus_mod by done.
    replace (__read_index q + MAX_EVENTS + 1)
      with (__read_index q + 1 + 1 * MAX_EVENTS) by lia.
    apply Z.mod_add. lia.
Qed.

(** X7.  After any run of pushes, the array holds the most recent
    [MAX_EVENTS] of them: the slot addressed by the counter of each of
    those pushes still has its event. *)
Theorem array_holds_recent_pushes q evs (i : nat) :
  wf q ->
  __write_index q + Z.of_nat (length evs) < UINT_MODULUS
    \/ (MAX_EVENTS | UINT_MODULUS) ->
  (i < length evs)%nat ->
  Z.of_nat (length evs) <= Z.of_nat i + MAX_EVENTS ->
  __events_buffer (push_all q evs)
    !! slot ((__write_index q + Z.of_nat i + 1) mod UINT_MODULUS)
  = evs !! i.
Proof.
  intros Hq Hwrap Hi Hrecent.
  replace (__write_index q + Z.of_nat i + 1)
    with (__write_index q + Z.of_nat (S i)) by lia.
  apply push_all_lookup; [done | | done | lia].
  destruct Hwrap as [Hsmall|Hdiv].
  - apply wrap_free_small; [apply Hq | done].
  - by apply wrap_free_divide.
Qed.

Lemma pending_after_pop_event q :
  wf q -> __read_index q <> __write_index q ->
  pending (snd (pop_event q)) = pending q - 1.
Proof.
  intros Hq Hne. rewrite pop_event_nonempty by done. cbn [snd].
  apply pending_after_pop; [done |].
  intros E. by apply Hne, pending_zero_iff.
Qed.

(** X8.  The consumer's loop always ends: with more fuel than there are
    unread events it returns.  What it returns is the longest run of typed
    events at the front of the unread ones; it stops at the end of them
    or at the first unread event of type [EVENT_NONE], which it consumes
    without returning it, leaving the events behind it unread. *)
Theorem drain_returns_typed_prefix fuel : forall q,
  wf q ->
  (Z.to_nat (pending q) < fuel)%nat ->
  exists l rest q',
    drain fuel q = Some (l, q') /\
    contents q = l ++ rest /\
    Forall (fun e => type e <> EVENT_NONE) l /\
    match rest with
    | [] => contents q' = []
    | e :: rest' => type e = EVENT_NONE /\ contents q' = rest'
    end.
Proof.
  induction fuel as [|fuel IH]; intros q Hq Hfuel; [lia |].
  cbn [EventQueue.drain].
  destruct (Z.eq_dec (__read_index q) (__write_index q)) as [He|Hne].
  - rewrite (pop_event_empty q He). cbn [type].
    exists [], [], q. rewrite contents_empty by done. by repeat split.
  - pose proof (contents_pop q Hq Hne) as Hc.
    pose proof (pending_after_pop_event q Hq Hne) as Hp.
    pose proof (wf_pop q Hq) as Hq1.
    pose proof (pending_range q) as Hrange.
    assert (Hpos : pending q <> 0).
    { intros E. by apply Hne, pending_zero_iff. }
    destruct (pop_event q) as [ev q1]. cbn [fst snd] in *.
    destruct (decide (type ev = EVENT_NONE)) as [Hnone|Htyped].
    + rewrite Hnone. exists [], (ev :: contents q1), q1.
      by repeat split.
    + destruct (IH q1 Hq1) as (l & rest & q' & Hd & Hl & HF & Hrest); [lia |].
      rewrite Hd. exists (ev :: l), rest, q'.
      repeat split.
      * by destruct (type ev).
      * by rewrite Hc, Hl.
      * by constructor.
      * done.
Qed.

Lemma run_cons o ops q :
  run q (o :: ops) =
    let '(out, q1) := run q [o] in
    let '(outs, q2) := run q1 ops in
    (out ++ outs, q2).
Proof.
  destruct o as [ty v|]; cbn [EventQueue.run].
  - by destruct (run (push_event q ty v) ops).
  - destruct (pop_event q) as [ev q1]. by destruct (run q1 ops).
Qed.

Lemma instance_run_existing ops : forall q,
  instance_run (Some q) ops
  = Some (fst (run q (calls_only ops)), Some (snd (run q (calls_only ops)))).
Proof.
  induction ops as [|[|o] ops IH]; intros q; [done | |].
  - cbn [EventQueue.instance_run EventQueue.create_instance].
    change (calls_only (CreateInstance :: ops)) with (calls_only ops).
    apply IH.
  - cbn [EventQueue.instance_run].
    change (calls_only (Call o :: ops)) with (o :: calls_only ops).
    rewrite (run_cons o (calls_only ops) q).
    destruct (run q [o]) as [out q1]. rewrite IH.
    by destruct (run q1 (calls_only ops)).
Qed.

(** X9.  [create_instance] constructs a queue only when there is none, and
    never replaces one: to a client that calls it first, calling it again
    at any later point, any number of times, makes no difference to what
    the pops return or to the queue. *)
Theorem create_instance_never_replaces __instance ops :
  let q0 := default create __instance in
  create_instance __instance = Some q0 /\
  instance_run __instance (CreateInstance :: ops)
  = Some (fst (run q0 (calls_only ops)),
          Some (snd (run q0 (calls_only ops)))).
Proof.
  cbn [EventQueue.instance_run].
  destruct __instance as [q|]; cbn [default EventQueue.create_instance];
    (split; [done | apply instance_run_existing]).
Qed.


End WithCapacity.


(** *** Concrete runs *)

Local Abbreviation ev n := (mkEvent EVENT_SERVER_SHUTDOWN n).

Lemma capacity_3_pos : 0 < 3.
Proof. reflexivity. Qed.

Lemma capacity_4_divides : (4 | UINT_MODULUS).
Proof. exists 1073741824. rewrite UINT_MODULUS_value. reflexivity. Qed.

Lemma wf_three_slots_at_wrap :
  wf 3 (mkQueue 4294967295 4294967295 (replicate 3 (mkEvent EVENT_NONE 0))).
Proof.
  unfold wf; cbn [__read_index __write_index __events_buffer].
  rewrite UINT_MODULUS_value, length_replicate. repeat split; lia.
Qed.

Lemma reachable_states_in_bounds_witness :
  let q := snd (run 4 (create 4)
                  [Push EVENT_ROLE_CHANGED 1; Pop; Pop;
                   Push EVENT_ROLE_CHANGED 2; Push EVENT_ROLE_CHANGED 3]) in
  wf 4 q /\
  (slot 4 (pre_increment (__write_index q)) < length (__events_buffer q))%nat /\
  (slot 4 (pre_increment (__read_index q)) < length (__events_buffer q))%nat.
Proof.
  apply (reachable_states_in_bounds 4 capacity_4_pos).
Defined.

Lemma push_pop_round_trip_witness :
  let q := mkQueue 4294967295 4294967295
             (replicate 3 (mkEvent EVENT_NONE 0)) in
  fst (pop_event 3 (push_event 3 q EVENT_ROLE_CHANGED 7))
  = mkEvent EVENT_ROLE_CHANGED 7 /\
  __read_index (snd (pop_event 3 (push_event 3 q EVENT_ROLE_CHANGED 7)))
  = __write_index (snd (pop_event 3 (push_event 3 q EVENT_ROLE_CHANGED 7))).
Proof.
  apply (push_pop_round_trip 3 capacity_3_pos).
  - exact wf_three_slots_at_wrap.
  - reflexivity.
Defined.

Lemma fifo_round_trip_to_capacity_witness :
  exists q',
    pop_n 4 4 (push_all 4 (create 4) [ev 1; ev 2; ev 3; ev 4])
    = ([ev 1; ev 2; ev 3; ev 4], q') /\
    __read_index q' = __write_index q' /\
    pop_event 4 q' = (mkEvent EVENT_NONE 0, q').
Proof.
  apply (fifo_round_trip_to_capacity 4 capacity_4_pos (create 4)
           [ev 1; ev 2; ev 3; ev 4]).
  - apply wf_create.
  - reflexivity.
  - simpl. lia.
  - rewrite UINT_MODULUS_value. reflexivity.
  - left. rewrite UINT_MODULUS_value. reflexivity.
Defined.

Lemma pop_beyond_pending_witness :
  let q := push_all 4 (create 4) [ev 1; ev 2] in
  pop_n 4 (Z.to_nat (pending q) + 3) q
  = (contents 4 q ++ replicate 3 (mkEvent EVENT_NONE 0),
     mkQueue (__write_index q) (__write_index q) (__events_buffer q)).
Proof.
  apply (pop_beyond_pending 4 (push_all 4 (create 4) [ev 1; ev 2]) 3).
  apply wf_push_all, wf_create.
Defined.

Lemma push_pop_commute_witness :
  let q := push_all 4 (create 4) [ev 1; ev 2] in
  snd (pop_event 4 (push_event 4 q EVENT_ROLE_CHANGED 3))
  = push_event 4 (snd (pop_event 4 q)) EVENT_ROLE_CHANGED 3.
Proof.
  apply (push_pop_commute 4 (push_all 4 (create 4) [ev 1; ev 2])
           EVENT_ROLE_CHANGED 3); vm_compute; discriminate.
Defined.

Lemma push_on_full_overwrites_oldest_witness :
  fst (pop_event 4
         (push_event 4 (push_all 4 (create 4) [ev 1; ev 2; ev 3; ev 4])
            EVENT_ROLE_CHANGED 5))
  = mkEvent EVENT_ROLE_CHANGED 5.
Proof.
  apply (push_on_full_overwrites_oldest 4 capacity_4_pos).
  - apply wf_push_all, wf_create.
  - exact capacity_4_divides.
  - rewrite UINT_MODULUS_value. reflexivity.
  - vm_compute. reflexivity.
Defined.

Lemma array_holds_recent_pushes_witness :
  __events_buffer
    (push_all 4 (create 4) [ev 1; ev 2; ev 3; ev 4; ev 5; ev 6])
    !! slot 4 ((__write_index (create 4) + Z.of_nat 3 + 1) mod UINT_MODULUS)
  = [ev 1; ev 2; ev 3; ev 4; ev 5; ev 6] !! 3%nat.
Proof.
  apply (array_holds_recent_pushes 4 capacity_4_pos (create 4)
           [ev 1; ev 2; ev 3; ev 4; ev 5; ev 6] 3).
  - apply wf_create.
  - left. rewrite UINT_MODULUS_value. reflexivity.
  - simpl. lia.
  - simpl. lia.
Defined.

Lemma drain_returns_typed_prefix_witness :
  let q := push_all 4 (create 4) [ev 1; mkEvent EVENT_NONE 9; ev 3] in
  exists l rest q',
    drain 4 4 q = Some (l, q') /\
    contents 4 q = l ++ rest /\
    Forall (fun e => type e <> EVENT_NONE) l /\
    match rest with
    | [] => contents 4 q' = []
    | e :: rest' => type e = EVENT_NONE /\ contents 4 q' = rest'
    end.
Proof.
  apply (drain_returns_typed_prefix 4 4
           (push_all 4 (create 4) [ev 1; mkEvent EVENT_NONE 9; ev 3])).
  - apply wf_push_all, wf_create.
  - vm_compute. lia.
Defined.

(** The loop of that run: it returns the first event only; the event of
    type [EVENT_NONE] pushed second ends it, and the third stays unread. *)
Example drain_stops_at_pushed_none :
  let q := push_all 4 (create 4) [ev 1; mkEvent EVENT_NONE 9; ev 3] in
  (fun r => (fst r, contents 4 (snd r))) <$> drain 4 4 q
  = Some ([ev 1], [ev 3]).
Proof. vm_compute. reflexivity. Qed.


End EventQueueMore.

(** ** The helpers of the XML tests *)

Module XmlTestFacts.
Import XmlTest.

(** *** [file_cmp] *)

Lemma read_skipping_drop skip lines : forall n textOfFile,
  read_skipping lines n skip textOfFile
  = textOfFile ++ drop (Z.to_nat (skip - n)) lines.
Proof.
  induction lines as [|line lines IH]; intros n acc.
  - simpl. by rewrite drop_nil, app_nil_r.
  - cbn [read_skipping]. rewrite IH.
    destruct (Z.ltb_spec skip (n + 1)) as [Hlt|Hge].
    + replace (Z.to_nat (skip - (n + 1))) with 0%nat by lia.
      replace (Z.to_nat (skip - n)) with 0%nat by lia.
      by rewrite !drop_0, <- app_assoc.
    + replace (Z.to_nat (skip - n)) with (S (Z.to_nat (skip - (n + 1))))
        by lia.
      done.
Qed.

Lemma lines_equal_from_spec t0 t1 fuel : forall i,
  lines_equal_from t0 t1 i fuel = true
  <-> (forall j, (i <= j < i + fuel)%nat ->
         nth j t0 EmptyString = nth j t1 EmptyString).
Proof.
  induction fuel as [|fuel IH]; intros i.
  - simpl. split; [intros _ j Hj; lia | done].
  - cbn [lines_equal_from].
    destruct (String.eqb_spec (nth i t0 EmptyString) (nth i t1 EmptyString))
      as [Heq|Hne]; cbn [negb].
    + rewrite IH. split; intros H j Hj.
      * destruct (decide (j = i)) as [->|]; [done | apply H; lia].
      * apply H. lia.
    + split; [done |]. intros H. exfalso. apply Hne, H. lia.
Qed.

Lemma file_cmp_iff f0 f1 skip :
  file_cmp f0 f1 skip = true
  <-> drop (Z.to_nat skip) f0 = drop (Z.to_nat skip) f1.
Proof.
  unfold file_cmp. rewrite !read_skipping_drop, Z.sub_0_r. cbn [app].
  set (t0 := drop _ f0). set (t1 := drop _ f1).
  destruct (Nat.eqb_spec (length t0) (length t1)) as [Hlen|Hlen]; cbn [negb].
  - rewrite lines_equal_from_spec. split.
    + intros H. apply (nth_ext _ _ EmptyString EmptyString); [done |].
      intros n Hn. apply H. lia.
    + intros ->. done.
  - split; [done |]. intros E. by rewrite E in Hlen.
Qed.

(** X10.  [file_cmp] answers [true] exactly when the two files are equal
    line by line after their first [skip] lines; a [skip] of zero or less
    skips nothing. *)
Theorem file_cmp_compares_after_skip f0 f1 skip :
  (file_cmp f0 f1 skip = true
   <-> drop (Z.to_nat skip) f0 = drop (Z.to_nat skip) f1) /\
  (skip <= 0 -> (file_cmp f0 f1 skip = true <-> f0 = f1)).
Proof.
  split; [apply file_cmp_iff |].
  intros Hs. rewrite file_cmp_iff.
  replace (Z.to_nat skip) with 0%nat by lia. by rewrite !drop_0.
Qed.

(** X11.  For a fixed [skip], [file_cmp] is an equivalence on files: every
    file compares equal to itself, the order of the two files does not
    matter, and two files equal to a third are equal to each other. *)
Theorem file_cmp_equivalence skip :
  (forall f, file_cmp f f skip = true) /\
  (forall f0 f1, file_cmp f0 f1 skip = file_cmp f1 f0 skip) /\
  (forall f0 f1 f2,
     file_cmp f0 f1 skip = true -> file_cmp f1 f2 skip = true ->
     file_cmp f0 f2 skip = true).
Proof.
  split; [| split].
  - intros f. by apply file_cmp_iff.
  - intros f0 f1.
    destruct (file_cmp f0 f1 skip) eqn:E01, (file_cmp f1 f0 skip) eqn:E10;
      try done.
    + apply file_cmp_iff in E01. symmetry in E01.
      apply file_cmp_iff in E01. congruence.
    + apply file_cmp_iff in E10. symmetry in E10.
      apply file_cmp_iff in E10. congruence.
  - intros f0 f1 f2 H01 H12. apply file_cmp_iff.
    apply file_cmp_iff in H01, H12. congruence.
Qed.

(** X12.  Two files that both have at most [skip] lines compare equal
    whatever they contain; and when only one of them has more than [skip]
    lines they compare different. *)
Theorem file_cmp_short_files f0 f1 skip :
  Z.of_nat (length f0) <= skip ->
  (Z.of_nat (length f1) <= skip -> file_cmp f0 f1 skip = true) /\
  (skip < Z.of_nat (length f1) -> file_cmp f0 f1 skip = false).
Proof.
  intros H0. split; intros H1.
  - apply file_cmp_iff. by rewrite !drop_ge by lia.
  - destruct (file_cmp f0 f1 skip) eqn:E; [| done].
    apply file_cmp_iff in E. apply (f_equal length) in E.
    rewrite !length_drop in E. lia.
Qed.

(** X13.  Skipping more lines never turns equal files into different
    ones. *)
Theorem file_cmp_skip_monotone f0 f1 skip skip' :
  skip <= skip' ->
  file_cmp f0 f1 skip = true ->
  file_cmp f0 f1 skip' = true.
Proof.
  intros Hle H. apply file_cmp_iff. apply file_cmp_iff in H.
  replace (Z.to_nat skip')
    with (Z.to_nat skip + (Z.to_nat skip' - Z.to_nat skip))%nat by lia.
  by rewrite <- !drop_drop, H.
Qed.

(** *** [check_samples_data] *)

Section Samples.

Context {Data : Type}.

Implicit Types (pLayer : option (InstrumentLayer Data))
  (pComponent : InstrumentComponent Data)
  (instruments : list (DrumkitInstrument Data)).

Lemma layer_passes_iff loaded pLayer :
  layer_passes loaded pLayer = true
  <-> (forall layer, pLayer = Some layer ->
         is_null (get_data_l (get_sample layer)) = negb loaded).
Proof.
  unfold layer_passes. destruct pLayer as [layer|].
  - destruct loaded, (get_data_l (get_sample layer)) as [d|] eqn:E;
      cbn [is_null orb negb];
      (split;
       [ intros H l [= <-]; rewrite E; simpl; done
       | intros H; specialize (H layer eq_refl); rewrite E in H;
         simpl in H; done ]).
  - split; [intros _ l; done | done].
Qed.

Lemma layers_loop_iff loaded pComponent fuel : forall nLayer,
  layers_loop loaded pComponent nLayer fuel = true
  <-> (forall n, (nLayer <= n < nLayer + fuel)%nat ->
         layer_passes loaded (get_layer pComponent n) = true).
Proof.
  induction fuel as [|fuel IH]; intros nLayer.
  - simpl. split; [intros _ n Hn; lia | done].
  - cbn [layers_loop].
    destruct (layer_passes loaded (get_layer pComponent nLayer)) eqn:E.
    + rewrite IH. split; intros H n Hn.
      * destruct (decide (n = nLayer)) as [->|]; [done | apply H; lia].
      * apply H. lia.
    + split; [done |]. intros H. rewrite H in E by lia. done.
Qed.

Lemma components_loop_iff loaded (cs : list (InstrumentComponent Data)) :
  components_loop loaded cs = true
  <-> (forall pComponent, In pComponent cs ->
         layers_loop loaded pComponent 0 getMaxLayers = true).
Proof.
  induction cs as [|c cs IH]; cbn [components_loop].
  - split; [intros _ c []| done].
  - destruct (layers_loop loaded c 0 getMaxLayers) eqn:E.
    + rewrite IH. split.
      * intros H c' [<-|Hin]; [done | by apply H].
      * intros H c' Hin. apply H. by right.
    + split; [done |]. intros H. rewrite H in E; [done | by left].
Qed.

Lemma instruments_loop_spec loaded instruments : forall count,
  instruments_loop loaded instruments count
  = if forallb (fun pInstr => components_loop loaded (get_components pInstr))
               instruments
    then Some (count + Z.of_nat (length instruments))
    else None.
Proof.
  induction instruments as [|pInstr instruments IH]; intros count.
  - simpl. by rewrite Z.add_0_r.
  - cbn [instruments_loop forallb length].
    destruct (components_loop loaded (get_components pInstr)); [| done].
    rewrite IH. cbn [andb].
    destruct (forallb _ instruments); [f_equal; lia | done].
Qed.

(** X14.  [check_samples_data] answers [true] exactly when the drumkit has
    four instruments and, in each of the first sixteen layer positions of
    every component of every instrument, a layer that is present has a
    left buffer exactly when [loaded].  The right buffers do not enter. *)
Theorem check_samples_data_iff instruments loaded :
  check_samples_data instruments loaded = true
  <-> length instruments = 4%nat /\ left_buffers_match instruments loaded.
Proof.
  unfold check_samples_data. rewrite instruments_loop_spec.
  destruct (forallb _ instruments) eqn:E.
  - rewrite forallb_forall in E. rewrite Z.eqb_eq. split.
    + intros Hc. split; [lia |].
      intros pInstr pComponent nLayer layer Hi Hco Hn Hl.
      specialize (E pInstr Hi). rewrite components_loop_iff in E.
      specialize (E pComponent Hco). rewrite layers_loop_iff in E.
      specialize (E nLayer ltac:(lia)). rewrite layer_passes_iff in E.
      by apply E.
    + intros [Hlen _]. lia.
  - split; [done |]. intros [_ Hm]. exfalso.
    assert (Hall : forallb (fun pInstr =>
                     components_loop loaded (get_components pInstr))
                     instruments = true); [| congruence].
    apply forallb_forall. intros pInstr Hi.
    apply components_loop_iff. intros pComponent Hco.
    apply layers_loop_iff. intros n Hn.
    apply layer_passes_iff. intros layer Hl.
    apply (Hm pInstr pComponent n layer); (done || lia).
Qed.

Lemma get_layer_with_data_r (r : option Data) pComponent n :
  get_layer (with_data_r_component r pComponent) n
  = option_map (fun l => mkLayer (with_data_r_sample r (get_sample l)))
               (get_layer pComponent n).
Proof.
  unfold get_layer, with_data_r_component. cbn [layers].
  change (map ?g ?l) with (g <$> l). rewrite list_lookup_fmap.
  by destruct (layers pComponent !! n) as [[l|]|].
Qed.

Lemma layers_loop_with_data_r (r : option Data) loaded pComponent fuel :
  forall nLayer,
  layers_loop loaded (with_data_r_component r pComponent) nLayer fuel
  = layers_loop loaded pComponent nLayer fuel.
Proof.
  induction fuel as [|fuel IH]; intros nLayer; [done |].
  cbn [layers_loop]. rewrite get_layer_with_data_r, IH.
  by destruct (get_layer pComponent nLayer).
Qed.

Lemma components_loop_with_data_r (r : option Data) loaded
    (cs : list (InstrumentComponent Data)) :
  components_loop loaded (map (with_data_r_component r) cs)
  = components_loop loaded cs.
Proof.
  induction cs as [|c cs IH]; [done |].
  cbn [map components_loop]. by rewrite layers_loop_with_data_r, IH.
Qed.

(** X15.  [check_samples_data] never looks at the right channel: giving
    every sample of the drumkit another right buffer, or none, does not
    change its answer. *)
Theorem check_samples_data_ignores_right (r : option Data) instruments loaded :
  check_samples_data (with_data_r r instruments) loaded
  = check_samples_data instruments loaded.
Proof.
  unfold check_samples_data. f_equal.
  generalize 0. induction instruments as [|pInstr instruments IH];
    intros count; [done |].
  cbn [with_data_r map instruments_loop get_components].
  rewrite components_loop_with_data_r.
  destruct (components_loop loaded (get_components pInstr)); [| done].
  apply IH.
Qed.

End Samples.



(** *** Concrete runs *)

Lemma file_cmp_short_files_witness :
  file_cmp ["<?xml one?>"; "<!-- a -->"] ["<?xml two?>"] 2 = true.
Proof.
  apply (file_cmp_short_files ["<?xml one?>"; "<!-- a -->"] ["<?xml two?>"] 2);
    simpl; lia.
Defined.

Lemma file_cmp_skip_monotone_witness :
  file_cmp ["v1"; "a"; "b"] ["v2"; "a"; "b"] 2 = true.
Proof.
  apply (file_cmp_skip_monotone ["v1"; "a"; "b"] ["v2"; "a"; "b"] 1 2).
  - lia.
  - vm_compute. reflexivity.
Defined.

(** A drumkit of four instruments whose samples have only their left
    channel loaded passes as loaded. *)
Example left_channel_only_passes :
  let sample := mkSample (Some [1; 2; 3]) None in
  let instr := mkInstrument [mkComponent [Some (mkLayer sample); None]] in
  check_samples_data [instr; instr; instr; instr] true = true.
Proof. vm_compute. reflexivity. Qed.


End XmlTestFacts.
